(** * Pool.h: a fixed-capacity object pool

    A shallow embedding of the [Pool<type>] class template of [src/Pool.h]
    and the properties of its partitioning algorithm.

    The class keeps an array of [m_iSize] pointers to heap objects and an
    index [m_iNextFreePosition]; the slots below the index are the active
    objects, the slots from the index on are the free ones.

    Modelling choices:
    - [int] is a 32-bit signed integer, carried as a [Z]; signed overflow is
      undefined behaviour.
    - a [type*] is an address, carried as an [N]; [nullptr] is address 0.
    - the objects of class [type] live in a store, a finite map from
      addresses to values. [new type()] picks an address that is neither
      null nor live (so the address of a deleted object may come back);
      [delete] removes the address from the store. Copy assignment of
      [type] copies the value. Allocation never runs out of memory.
    - the array behind [m_pArrayLocation] is a list of addresses; reads and
      writes outside it are undefined behaviour. The address of the array
      itself is not tracked. Every array of the class comes from
      [new type*[n]]; the class releases it with [delete], not [delete[]],
      which is undefined behaviour.
    - a member function is a function from the object's fields (and the
      store, when it allocates or frees) to an [outcome]: either it returns,
      or its behaviour is undefined. No function of the class throws: every
      [throw] of the source is commented out. *)

From Stdlib Require Import ZArith Lia.
From stdpp Require Import gmap list fin_maps.

Local Open Scope Z_scope.

(** ** Outcomes *)

Inductive outcome (A : Type) : Type :=
| Returns (a : A)
| Undefined.

Arguments Returns {A} a.
Arguments Undefined {A}.

Definition bind {A B : Type} (m : outcome A) (k : A -> outcome B) : outcome B :=
  match m with
  | Returns a => k a
  | Undefined => Undefined
  end.

Declare Scope outcome_scope.
Delimit Scope outcome_scope with outcome.
Notation "x <- m ;; k" := (bind m (fun x => k))
  (at level 100, m at next level, right associativity) : outcome_scope.
Local Open Scope outcome_scope.

(** ** The type [int] *)

Definition INT_MIN : Z := -2147483648.
Definition INT_MAX : Z := 2147483647.

Definition is_int (z : Z) : Prop := INT_MIN <= z <= INT_MAX.

Definition int_of (z : Z) : outcome Z :=
  if (INT_MIN <=? z) && (z <=? INT_MAX) then Returns z else Undefined.

Definition int_add (a b : Z) : outcome Z := int_of (a + b).
Definition int_sub (a b : Z) : outcome Z := int_of (a - b).

(** ** Counted loops: [for (int i = lo; i < hi; i++) body] *)

Fixpoint for_loop_from {S : Type} (n : nat) (i : Z)
    (body : Z -> S -> outcome S) (s : S) : outcome S :=
  match n with
  | O => Returns s
  | Datatypes.S n' => s' <- body i s ;; for_loop_from n' (i + 1) body s'
  end.

Definition for_loop {S : Type} (lo hi : Z)
    (body : Z -> S -> outcome S) (s : S) : outcome S :=
  for_loop_from (Z.to_nat (hi - lo)) lo body s.

(** ** Pointers and arrays of pointers *)

Definition nullptr : N := 0%N.

(** [new type*[n]]: the cells hold no meaningful value until written; every
    loop below writes a cell before any code reads it. *)
Definition new_array (n : Z) : list N := replicate (Z.to_nat n) nullptr.

(** [cells[i]] *)
Definition read (cells : list N) (i : Z) : outcome N :=
  if i <? 0 then Undefined
  else match cells !! Z.to_nat i with
       | Some a => Returns a
       | None => Undefined
       end.

(** [cells[i] = a] *)
Definition write (cells : list N) (i : Z) (a : N) : outcome (list N) :=
  if (0 <=? i) && (i <? Z.of_nat (length cells))
  then Returns (<[Z.to_nat i := a]> cells)
  else Undefined.

(** [delete p] for the pointer [p] to an array of the class. Every array of
    the class comes from the array form of [new] ([new type*[n]], lines 65,
    87, 115 and 226); releasing it with the single-object form of [delete]
    is undefined behaviour. *)
Definition delete_array_as_object (cells : list N) : outcome unit := Undefined.

(** The fields of a [Pool] object. *)
Record Pool : Type := mkPool {
  m_iSize : Z;
  m_iNextFreePosition : Z;
  m_pArrayLocation : list N
}.

(** The member [m_pArrayLocation] has no initialiser: until a constructor
    assigns it, it holds no array. *)
Inductive array_member : Type :=
| Unassigned
| Assigned (cells : list N).

Inductive op : Type :=
| OpGetNext
| OpRelease (a_pAddress : N)
| OpSize (a_iNewSize : Z).

Section PoolOf.

Context {type : Type}.

(** The value a default-constructed object holds: [type()]. *)
Variable type_default : type.

Abbreviation heap := (gmap N type).

(** *** The object store *)

(** [new type()] *)
Definition new_object (h : heap) : N * heap :=
  let l := fresh ({[nullptr]} ∪ dom h) in (l, <[l := type_default]> h).

(** [*a] *)
Definition load (a : N) (h : heap) : outcome type :=
  match h !! a with
  | Some v => Returns v
  | None => Undefined
  end.

(** [*a = v] *)
Definition store (a : N) (v : type) (h : heap) : outcome heap :=
  match h !! a with
  | Some _ => Returns (<[a := v]> h)
  | None => Undefined
  end.

(** [delete a] *)
Definition delete_object (a : N) (h : heap) : outcome heap :=
  if (a =? nullptr)%N then Returns h
  else match h !! a with
       | Some _ => Returns (delete a h)
       | None => Undefined
       end.

(** *** Destructor *)

(** The loop of the destructor: [delete m_pArrayLocation[i_pointer]] for
    every slot. *)
Definition Pool_dtor_loop (size : Z) (cells : list N) (h : heap) : outcome heap :=
  for_loop 0 size
    (fun i_pointer h => a <- read cells i_pointer ;; delete_object a h) h.

(** [virtual ~Pool()], run on an object with the given [m_iSize] and
    [m_pArrayLocation]. Using a pointer member that was never assigned is
    undefined behaviour. *)
Definition Pool_dtor (size : Z) (arr : array_member) (h : heap) : outcome heap :=
  match arr with
  | Unassigned => Undefined
  | Assigned cells =>
      h' <- Pool_dtor_loop size cells h ;;
      (* delete m_pArrayLocation; *)
      _ <- delete_array_as_object cells ;;
      Returns h'
  end.

(** *** Constructors

    A constructor returns the constructed object, or [None] when the object
    it was constructing has been deleted. The default member initialisers
    set [m_iSize] to 10 and [m_iNextFreePosition] to 0 before the body of a
    constructor runs; [m_pArrayLocation] has none. *)

Definition fill_default_body (i : Z) (s : list N * heap)
    : outcome (list N * heap) :=
  let '(l_pObject, h1) := new_object (snd s) in
  cells1 <- write (fst s) i l_pObject ;;
  Returns (cells1, h1).

(** [Pool()] *)
Definition Pool_default (h : heap) : outcome (option Pool * heap) :=
  let m_iSize := 10 in
  s <- for_loop 0 m_iSize fill_default_body (new_array m_iSize, h) ;;
  Returns (Some (mkPool m_iSize 0 (fst s)), snd s).

(** [Pool(const int a_iSize)] *)
Definition Pool_sized (a_iSize : Z) (h : heap) : outcome (option Pool * heap) :=
  if 0 <? a_iSize then
    s <- for_loop 0 a_iSize fill_default_body (new_array a_iSize, h) ;;
    Returns (Some (mkPool a_iSize 0 (fst s)), snd s)
  else
    (* delete this; *)
    h' <- Pool_dtor 10 Unassigned h ;;
    Returns (None, h').

Definition fill_clone_body (a_pObjectToPool : N) (i : Z) (s : list N * heap)
    : outcome (list N * heap) :=
  let '(l_pClone, h1) := new_object (snd s) in
  v <- load a_pObjectToPool h1 ;;
  h2 <- store l_pClone v h1 ;;
  cells1 <- write (fst s) i l_pClone ;;
  Returns (cells1, h2).

(** [Pool(type* a_pObjectToPool, const int a_iSize)] *)
Definition Pool_cloned (a_pObjectToPool : N) (a_iSize : Z) (h : heap)
    : outcome (option Pool * heap) :=
  if 0 <? a_iSize then
    s <- for_loop 0 a_iSize (fill_clone_body a_pObjectToPool)
           (new_array a_iSize, h) ;;
    Returns (Some (mkPool a_iSize 0 (fst s)), snd s)
  else
    (* delete this; *)
    h' <- Pool_dtor 10 Unassigned h ;;
    Returns (None, h').

(** *** Retrieval *)

(** [type* getNext()] *)
Definition getNext (this : Pool) : outcome (N * Pool) :=
  if m_iNextFreePosition this <? m_iSize this then
    let i_positionPointer := m_iNextFreePosition this in
    next <- int_add (m_iNextFreePosition this) 1 ;;
    a <- read (m_pArrayLocation this) i_positionPointer ;;
    Returns (a, mkPool (m_iSize this) next (m_pArrayLocation this))
  else
    Returns (nullptr, this).

(** *** Release *)

(** The search loop of [release]:
    [for (i_location = 0; i_location < m_iSize; i_location++)] with its
    [break]; [n] is the number of iterations left. The result is the value of
    [i_addressPositionInArray] after the loop. *)
Fixpoint release_search (n : nat) (i_location : Z) (cells : list N)
    (a_pAddress : N) : outcome Z :=
  match n with
  | O => Returns (-1)
  | S n' =>
      v <- read cells i_location ;;
      if (v =? a_pAddress)%N then Returns i_location
      else release_search n' (i_location + 1) cells a_pAddress
  end.

(** [void release(type* a_pAddress)] *)
Definition release (this : Pool) (a_pAddress : N) : outcome Pool :=
  i_addressPositionInArray <-
    release_search (Z.to_nat (m_iSize this)) 0 (m_pArrayLocation this) a_pAddress ;;
  if (-1 <? i_addressPositionInArray)
     && (i_addressPositionInArray <? m_iNextFreePosition this)
  then
    lastActive <- int_sub (m_iNextFreePosition this) 1 ;;
    (* if (lastActive < 0) { } *)
    lastActiveAddress <- read (m_pArrayLocation this) lastActive ;;
    cells1 <- write (m_pArrayLocation this) lastActive a_pAddress ;;
    cells2 <- write cells1 i_addressPositionInArray lastActiveAddress ;;
    next <- int_sub (m_iNextFreePosition this) 1 ;;
    Returns (mkPool (m_iSize this) next cells2)
  else
    Returns this.

(** What a call of [release] hands back to its caller: the function is
    [void]. *)
Definition release_result (this : Pool) (a_pAddress : N) : outcome unit :=
  _ <- release this a_pAddress ;; Returns tt.

(** *** Size *)

(** [int size() const] *)
Definition size (this : Pool) : Z := m_iSize this.

Definition size_copy_body (old : list N) (i : Z) (l_pNewArray : list N)
    : outcome (list N) :=
  v <- read old i ;; write l_pNewArray i v.

Definition size_clone_body (this : Pool) (i : Z) (s : list N * heap)
    : outcome (list N * heap) :=
  let '(l_pClone, h1) := new_object (snd s) in
  last <- int_sub (m_iSize this) 1 ;;
  a_last <- read (m_pArrayLocation this) last ;;
  v <- load a_last h1 ;;
  h2 <- store l_pClone v h1 ;;
  l_pNewArray <- write (fst s) i l_pClone ;;
  Returns (l_pNewArray, h2).

Definition size_delete_body (old : list N) (i : Z) (h : heap) : outcome heap :=
  a <- read old i ;; delete_object a h.

(** The new array and the three loops of [size(int)], lines 226 to 255: the
    new array and the object store after them. The first loop runs while
    [i < a_iNewSize && i < m_iSize], that is up to the smaller of the two. *)
Definition size_loops (this : Pool) (a_iNewSize : Z) (h : heap)
    : outcome (list N * heap) :=
  let l_pNewArray := new_array a_iNewSize in
  arr1 <- for_loop 0 (Z.min a_iNewSize (m_iSize this))
            (size_copy_body (m_pArrayLocation this)) l_pNewArray ;;
  s <- for_loop (m_iSize this) a_iNewSize (size_clone_body this) (arr1, h) ;;
  h3 <- for_loop a_iNewSize (m_iSize this)
          (size_delete_body (m_pArrayLocation this)) (snd s) ;;
  Returns (fst s, h3).

(** [bool size(int a_iNewSize)] *)
Definition size_set (this : Pool) (a_iNewSize : Z) (h : heap)
    : outcome (bool * Pool * heap) :=
  if 0 <? a_iNewSize then
    r <- size_loops this a_iNewSize h ;;
    (* delete m_pArrayLocation; *)
    _ <- delete_array_as_object (m_pArrayLocation this) ;;
    (* m_pArrayLocation = l_pNewArray; *)
    let next := if a_iNewSize <? m_iNextFreePosition this
                then a_iNewSize else m_iNextFreePosition this in
    Returns (true, mkPool a_iNewSize next (fst r), snd r)
  else
    Returns (false, this, h).

(** *** Introspection *)

(** [int activeCount()] *)
Definition activeCount (this : Pool) : Z := m_iNextFreePosition this.

(** [int freeCount()] *)
Definition freeCount (this : Pool) : outcome Z :=
  int_sub (m_iSize this) (m_iNextFreePosition this).

(** [type** activeAddresses(int* a_end)]: [a_end] is [None] for a null
    pointer and [Some l] for the address of an [int]; [ints] holds the [int]
    objects of the caller. The result is the array pointer and the [int]
    objects after the call. *)
Definition activeAddresses (this : Pool) (a_end : option N) (ints : gmap N Z)
    : list N * gmap N Z :=
  let ints' := match a_end with
               | Some l => <[l := m_iNextFreePosition this]> ints
               | None => ints
               end in
  (m_pArrayLocation this, ints').

(** *** Sequences of calls *)

Definition step (o : op) (s : Pool * heap) : outcome (Pool * heap) :=
  match o with
  | OpGetNext => r <- getNext (fst s) ;; Returns (snd r, snd s)
  | OpRelease a => this <- release (fst s) a ;; Returns (this, snd s)
  | OpSize n => r <- size_set (fst s) n (snd s) ;; Returns (snd (fst r), snd r)
  end.

(** The states after each call of the sequence, in order. *)
Fixpoint run (ops : list op) (s : Pool * heap) : outcome (list (Pool * heap)) :=
  match ops with
  | [] => Returns []
  | o :: ops' =>
      s' <- step o s ;;
      rest <- run ops' s' ;;
      Returns (s' :: rest)
  end.

(** [n] calls of [getNext] in a row: the pointers returned, in order, and
    the pool after the last call. *)
Fixpoint getNext_times (n : nat) (this : Pool) : outcome (list N * Pool) :=
  match n with
  | O => Returns ([], this)
  | S n' =>
      r <- getNext this ;;
      rest <- getNext_times n' (snd r) ;;
      Returns (fst r :: fst rest, snd rest)
  end.

(** The calls [release(a)] for each address of [handles], in order: the loop
    of a caller that gives back the objects it holds. *)
Fixpoint release_all (handles : list N) (this : Pool) : outcome Pool :=
  match handles with
  | [] => Returns this
  | a :: rest => this' <- release this a ;; release_all rest this'
  end.

(** *** Well-formed pools

    [pool_shape] is the part of the class invariant that concerns the fields
    alone; [owned] says that the pool's slots hold pairwise distinct, live,
    non-null objects. *)

Definition pool_shape (this : Pool) : Prop :=
  0 < m_iSize this <= INT_MAX
  /\ 0 <= m_iNextFreePosition this <= m_iSize this
  /\ Z.of_nat (length (m_pArrayLocation this)) = m_iSize this.

Definition owned (cells : list N) (h : heap) : Prop :=
  NoDup cells /\ Forall (fun a => a <> nullptr /\ is_Some (h !! a)) cells.

Definition pool_wf (this : Pool) (h : heap) : Prop :=
  pool_shape this /\ owned (m_pArrayLocation this) h.

#[global] Instance pool_shape_dec this : Decision (pool_shape this).
Proof. unfold pool_shape. apply _. Defined.

#[global] Instance owned_dec cells h : Decision (owned cells h).
Proof. unfold owned. apply _. Defined.

#[global] Instance pool_wf_dec this h : Decision (pool_wf this h).
Proof. unfold pool_wf. apply _. Defined.

(** The call is a resize that [size(int)] accepts: its argument is
    positive. *)
Definition accepts_resize (o : op) : Prop :=
  match o with
  | OpSize a_iNewSize => 0 < a_iNewSize
  | _ => False
  end.

#[global] Instance accepts_resize_dec o : Decision (accepts_resize o).
Proof. destruct o; unfold accepts_resize; apply _. Defined.

(** A pool as one of the three constructors leaves it. The template object
    of the cloning constructor is a live object. *)
Definition constructed (this : Pool) (h : heap) : Prop :=
  (exists h0, Pool_default h0 = Returns (Some this, h))
  \/ (exists a_iSize h0,
        is_int a_iSize /\ Pool_sized a_iSize h0 = Returns (Some this, h))
  \/ (exists a_pObjectToPool a_iSize h0,
        is_int a_iSize /\ is_Some (h0 !! a_pObjectToPool)
        /\ Pool_cloned a_pObjectToPool a_iSize h0 = Returns (Some this, h)).

(** Invariant I1 of the specification. *)
Definition partition_invariant (this : Pool) : Prop :=
  0 <= m_iNextFreePosition this <= m_iSize this.

(** *** Results in the terms of the specification

    The specification names three failures. The class has no exception and
    no error code: [getNext] reports that it failed by returning [nullptr],
    [size(int)] by returning [false]. [release] is [void] and the
    constructors return nothing. *)
Inductive PoolError : Type :=
| InvalidArgument
| PoolExhausted
| InvalidRelease.

Definition spec_retrieve_result (r : N) : PoolError + N :=
  if (r =? nullptr)%N then inl PoolExhausted else inr r.

Definition spec_resize_result (r : bool) : PoolError + unit :=
  if r then inr tt else inl InvalidArgument.

(** The movement of the boundary in the words of the specification:
    retrieval increments it only when a slot is free, release decrements it
    only when the address occupies an active slot, and resizing clamps it to
    the new capacity. *)
Definition spec_cursor_after (o : op) (this : Pool) : Z :=
  let cursor := m_iNextFreePosition this in
  match o with
  | OpGetNext => if cursor <? m_iSize this then cursor + 1 else cursor
  | OpRelease a =>
      if bool_decide (a ∈ take (Z.to_nat cursor) (m_pArrayLocation this))
      then cursor - 1 else cursor
  | OpSize n => if (0 <? n) && (n <? cursor) then n else cursor
  end.

(** Every call of the sequence [ops], started on [this], moved the boundary
    as [spec_cursor_after] says; [trace] lists the states after each call. *)
Fixpoint boundary_moves (ops : list op) (this : Pool)
    (trace : list (Pool * heap)) : Prop :=
  match ops, trace with
  | [], [] => True
  | o :: ops', s :: trace' =>
      m_iNextFreePosition (fst s) = spec_cursor_after o this
      /\ boundary_moves ops' (fst s) trace'
  | _, _ => False
  end.

(** The bodies of the three allocating loops all have this form: allocate an
    object, give it the value [v], and store its address in cell [i]. *)
Definition allocating (body : Z -> list N * heap -> outcome (list N * heap))
    (v : type) (P : heap -> Prop) : Prop :=
  forall (i : nat) (cells : list N) (hc : heap),
    (i < length cells)%nat -> P hc ->
    body (Z.of_nat i) (cells, hc)
    = Returns (<[i := fst (new_object hc)]> cells, <[fst (new_object hc) := v]> hc).

(** The first index at which [a] occurs in [cells] is [k]. *)
Definition first_at (cells : list N) (a : N) (k : nat) : Prop :=
  cells !! k = Some a /\ Forall (fun b => b <> a) (take k cells).

#[global] Instance first_at_dec cells a k : Decision (first_at cells a k).
Proof. unfold first_at. apply _. Defined.

(** *** Sample pools

    A pool of [int]-like objects (natural numbers, default value 7) whose
    objects sit at the addresses 1, 2, ..., as the sized constructor leaves
    them on an empty store, with a given number of active objects. *)

Definition sample_cells (n : nat) : list N := N.of_nat <$> seq 1 n.

Definition sample_pool (n : nat) (active : Z) : Pool :=
  mkPool (Z.of_nat n) active (sample_cells n).

Definition sample_heap (n : nat) : gmap N nat :=
  list_to_map ((fun a => (a, 7%nat)) <$> sample_cells n).

(** *** Basic facts *)

Lemma bind_Returns {A B : Type} (m : outcome A) (k : A -> outcome B) (b : B) :
  bind m k = Returns b <-> exists a, m = Returns a /\ k a = Returns b.
Proof.
  destruct m as [a|]; simpl; split.
  - intros H. exists a. split; [reflexivity | exact H].
  - intros (a' & Ha & Hk). injection Ha as ->. exact Hk.
  - discriminate.
  - intros (a' & Ha & _). discriminate.
Qed.

Lemma int_of_Returns (z : Z) : is_int z -> int_of z = Returns z.
Proof.
  unfold is_int, int_of. intros [Hlo Hhi].
  apply Z.leb_le in Hlo, Hhi. rewrite Hlo, Hhi. reflexivity.
Qed.

Lemma read_nat (cells : list N) (k : nat) (a : N) :
  cells !! k = Some a -> read cells (Z.of_nat k) = Returns a.
Proof.
  intros H. unfold read.
  destruct (Z.ltb_spec (Z.of_nat k) 0) as [Hneg|_]; [lia|].
  rewrite Nat2Z.id, H. reflexivity.
Qed.

Lemma read_Returns (cells : list N) (i : Z) (a : N) :
  0 <= i -> cells !! Z.to_nat i = Some a -> read cells i = Returns a.
Proof.
  intros Hi H. rewrite <- (Z2Nat.id i Hi). apply read_nat, H.
Qed.

Lemma write_Returns (cells : list N) (i : Z) (a : N) :
  0 <= i < Z.of_nat (length cells) ->
  write cells i a = Returns (<[Z.to_nat i := a]> cells).
Proof.
  intros [Hlo Hhi]. unfold write.
  apply Z.leb_le in Hlo. apply Z.ltb_lt in Hhi. rewrite Hlo, Hhi. reflexivity.
Qed.

Lemma write_nat (cells : list N) (k : nat) (a : N) :
  (k < length cells)%nat ->
  write cells (Z.of_nat k) a = Returns (<[k := a]> cells).
Proof.
  intros Hk. rewrite write_Returns by lia. rewrite Nat2Z.id. reflexivity.
Qed.

(** The loop rule: an invariant that holds on entry and that each iteration
    of the body preserves (without undefined behaviour) holds on exit. *)
Lemma for_loop_from_rule {S : Type} (I : nat -> S -> Prop)
    (body : Z -> S -> outcome S) (n : nat) :
  forall (i : nat) (s : S),
  I i s ->
  (forall (j : nat) (s0 : S), (i <= j < i + n)%nat -> I j s0 ->
     exists s1, body (Z.of_nat j) s0 = Returns s1 /\ I (Datatypes.S j) s1) ->
  exists s', for_loop_from n (Z.of_nat i) body s = Returns s' /\ I (i + n)%nat s'.
Proof.
  induction n as [|n IH]; intros i s Hi Hbody; simpl.
  - exists s. rewrite Nat.add_0_r. split; [reflexivity | exact Hi].
  - destruct (Hbody i s ltac:(lia) Hi) as (s1 & Hs1 & HI1).
    rewrite Hs1. simpl.
    replace (Z.of_nat i + 1) with (Z.of_nat (Datatypes.S i)) by lia.
    destruct (IH (Datatypes.S i) s1 HI1) as (s' & Hs' & HI').
    + intros j s0 Hj. apply Hbody. lia.
    + exists s'. split; [exact Hs'|].
      replace (i + Datatypes.S n)%nat with (Datatypes.S i + n)%nat by lia.
      exact HI'.
Qed.

Lemma for_loop_rule {S : Type} (I : nat -> S -> Prop)
    (body : Z -> S -> outcome S) (lo hi : nat) (s : S) :
  (lo <= hi)%nat ->
  I lo s ->
  (forall (j : nat) (s0 : S), (lo <= j < hi)%nat -> I j s0 ->
     exists s1, body (Z.of_nat j) s0 = Returns s1 /\ I (Datatypes.S j) s1) ->
  exists s', for_loop (Z.of_nat lo) (Z.of_nat hi) body s = Returns s' /\ I hi s'.
Proof.
  intros Hle Hlo Hbody. unfold for_loop.
  replace (Z.to_nat (Z.of_nat hi - Z.of_nat lo)) with (hi - lo)%nat by lia.
  destruct (for_loop_from_rule I body (hi - lo) lo s Hlo) as (s' & Hs' & HI').
  - intros j s0 Hj. apply Hbody. lia.
  - exists s'. split; [exact Hs'|].
    replace (lo + (hi - lo))%nat with hi in HI' by lia. exact HI'.
Qed.

Lemma for_loop_empty {S : Type} (body : Z -> S -> outcome S) (lo hi : Z) (s : S) :
  hi <= lo -> for_loop lo hi body s = Returns s.
Proof.
  intros H. unfold for_loop.
  replace (Z.to_nat (hi - lo)) with O by lia. reflexivity.
Qed.

(** *** Facts about [getNext] *)

Lemma getNext_free (this : Pool) :
  pool_shape this ->
  m_iNextFreePosition this < m_iSize this ->
  exists a,
    m_pArrayLocation this !! Z.to_nat (m_iNextFreePosition this) = Some a
    /\ getNext this
       = Returns (a, mkPool (m_iSize this) (m_iNextFreePosition this + 1)
                       (m_pArrayLocation this)).
Proof.
  intros (Hsize & Hcur & Hlen) Hlt.
  destruct (lookup_lt_is_Some_2 (m_pArrayLocation this)
              (Z.to_nat (m_iNextFreePosition this))) as [a Ha]; [lia|].
  exists a. split; [exact Ha|].
  unfold getNext. apply Z.ltb_lt in Hlt as Hb. rewrite Hb.
  unfold int_add. rewrite int_of_Returns by (unfold is_int, INT_MIN, INT_MAX in *; lia).
  simpl. rewrite (read_Returns _ _ a) by (lia || exact Ha). reflexivity.
Qed.

Lemma getNext_exhausted (this : Pool) :
  m_iSize this <= m_iNextFreePosition this ->
  getNext this = Returns (nullptr, this).
Proof.
  intros Hge. unfold getNext.
  destruct (Z.ltb_spec (m_iNextFreePosition this) (m_iSize this)); [lia|reflexivity].
Qed.

(** *** Facts about [release] *)

Lemma release_search_spec (cells : list N) (a : N) (n : nat) :
  forall i : nat, (i + n <= length cells)%nat ->
  (release_search n (Z.of_nat i) cells a = Returns (-1)
   /\ forall j, (i <= j < i + n)%nat -> cells !! j <> Some a)
  \/ (exists k : nat, (i <= k < i + n)%nat
      /\ release_search n (Z.of_nat i) cells a = Returns (Z.of_nat k)
      /\ cells !! k = Some a
      /\ forall j, (i <= j < k)%nat -> cells !! j <> Some a).
Proof.
  induction n as [|n IH]; intros i Hlen; simpl.
  - left. split; [reflexivity|]. intros j Hj. lia.
  - destruct (lookup_lt_is_Some_2 cells i) as [v Hv]; [lia|].
    rewrite (read_nat _ _ _ Hv). simpl.
    destruct (N.eqb_spec v a) as [->|Hne].
    + right. exists i.
      split; [lia|]. split; [reflexivity|]. split; [exact Hv|].
      intros j Hj. lia.
    + replace (Z.of_nat i + 1) with (Z.of_nat (S i)) by lia.
      destruct (IH (S i) ltac:(lia)) as [[Hr Hnone]|(k & Hk & Hr & Hka & Hbefore)].
      * left. split; [exact Hr|]. intros j Hj.
        destruct (decide (j = i)) as [->|Hji].
        -- rewrite Hv. congruence.
        -- apply Hnone. lia.
      * right. exists k.
        split; [lia|]. split; [exact Hr|]. split; [exact Hka|].
        intros j Hj. destruct (decide (j = i)) as [->|Hji].
        -- rewrite Hv. congruence.
        -- apply Hbefore. lia.
Qed.

Lemma first_at_lt (cells : list N) (a : N) (k : nat) :
  first_at cells a k -> (k < length cells)%nat.
Proof. intros [Hk _]. eapply lookup_lt_Some, Hk. Qed.

Lemma first_at_before (cells : list N) (a : N) (k j : nat) :
  first_at cells a k -> (j < k)%nat -> cells !! j <> Some a.
Proof.
  intros [_ Hall] Hj Hja.
  rewrite Forall_forall in Hall. apply (Hall a); [|reflexivity].
  apply list_elem_of_lookup. exists j. rewrite lookup_take_lt by lia. exact Hja.
Qed.

Lemma first_at_NoDup (cells : list N) (a : N) (k : nat) :
  NoDup cells -> cells !! k = Some a -> first_at cells a k.
Proof.
  intros Hnd Hk. split; [exact Hk|].
  apply Forall_forall. intros b Hb ->.
  apply list_elem_of_lookup in Hb as [j Hj].
  apply lookup_take_Some in Hj as [Hj Hlt].
  pose proof (NoDup_lookup _ _ _ _ Hnd Hj Hk). lia.
Qed.

(** The search of [release] returns the first index of the address. *)
Lemma release_search_first (this : Pool) (a : N) (k : nat) :
  Z.of_nat (length (m_pArrayLocation this)) = m_iSize this ->
  first_at (m_pArrayLocation this) a k ->
  release_search (Z.to_nat (m_iSize this)) 0 (m_pArrayLocation this) a
  = Returns (Z.of_nat k).
Proof.
  intros Hlen Hfirst.
  pose proof (first_at_lt _ _ _ Hfirst) as Hk.
  destruct (release_search_spec (m_pArrayLocation this) a
              (Z.to_nat (m_iSize this)) 0 ltac:(lia))
    as [[_ Hnone]|(k' & Hk' & Hr & Hka & Hbefore)].
  - exfalso. apply (Hnone k); [lia|]. apply Hfirst.
  - change (Z.of_nat 0) with 0 in Hr. rewrite Hr. f_equal. f_equal.
    destruct (Nat.lt_trichotomy k' k) as [Hlt|[Heq|Hgt]]; [|exact Heq|].
    + exfalso. exact (first_at_before _ _ _ _ Hfirst Hlt Hka).
    + exfalso. apply (Hbefore k); [lia|]. apply Hfirst.
Qed.

(** Releasing an address whose first slot is active swaps it with the last
    active slot and moves the boundary down. *)
Lemma release_accepts (this : Pool) (a : N) (k : nat) :
  pool_shape this ->
  first_at (m_pArrayLocation this) a k ->
  Z.of_nat k < m_iNextFreePosition this ->
  exists b,
    m_pArrayLocation this !! Z.to_nat (m_iNextFreePosition this - 1) = Some b
    /\ release this a
       = Returns (mkPool (m_iSize this) (m_iNextFreePosition this - 1)
                    (<[k := b]>
                       (<[Z.to_nat (m_iNextFreePosition this - 1) := a]>
                          (m_pArrayLocation this)))).
Proof.
  intros (Hsize & Hcur & Hlen) Hfirst Hk.
  destruct (lookup_lt_is_Some_2 (m_pArrayLocation this)
              (Z.to_nat (m_iNextFreePosition this - 1))) as [b Hb]; [lia|].
  exists b. split; [exact Hb|].
  unfold release. rewrite (release_search_first this a k Hlen Hfirst). simpl.
  destruct (Z.ltb_spec (-1) (Z.of_nat k)); [|lia].
  destruct (Z.ltb_spec (Z.of_nat k) (m_iNextFreePosition this)); [|lia].
  simpl. unfold int_sub.
  rewrite int_of_Returns by (unfold is_int, INT_MIN, INT_MAX in *; lia).
  simpl. rewrite (read_Returns _ _ b) by (lia || exact Hb). simpl.
  rewrite write_Returns by lia. simpl.
  rewrite write_nat by (rewrite length_insert; lia). reflexivity.
Qed.

(** Releasing an address that occupies no active slot changes nothing. *)
Lemma release_rejects (this : Pool) (a : N) :
  Z.of_nat (length (m_pArrayLocation this)) = m_iSize this ->
  (forall j : nat, Z.of_nat j < m_iNextFreePosition this ->
     m_pArrayLocation this !! j <> Some a) ->
  release this a = Returns this.
Proof.
  intros Hlen Hfree. unfold release.
  destruct (release_search_spec (m_pArrayLocation this) a
              (Z.to_nat (m_iSize this)) 0 ltac:(lia))
    as [[Hr _]|(k & _ & Hr & Hka & _)];
    change (Z.of_nat 0) with 0 in Hr; rewrite Hr; simpl.
  - reflexivity.
  - destruct (Z.ltb_spec (Z.of_nat k) (m_iNextFreePosition this)) as [Hlt|_].
    + exfalso. exact (Hfree k Hlt Hka).
    + rewrite andb_false_r. reflexivity.
Qed.

Lemma swap_lookup (cells : list N) (k l j : nat) (a b : N) :
  (k < length cells)%nat -> (l < length cells)%nat ->
  <[k := b]> (<[l := a]> cells) !! j
  = if decide (j = k) then Some b
    else if decide (j = l) then Some a else cells !! j.
Proof.
  intros Hk Hl.
  destruct (decide (j = k)) as [->|Hjk].
  - rewrite list_lookup_insert_eq by (rewrite length_insert; lia). reflexivity.
  - rewrite list_lookup_insert_ne by congruence.
    destruct (decide (j = l)) as [->|Hjl].
    + rewrite list_lookup_insert_eq by lia. reflexivity.
    + rewrite list_lookup_insert_ne by congruence. reflexivity.
Qed.

Lemma swap_source (cells : list N) (k l j : nat) (a b x : N) :
  cells !! k = Some a -> cells !! l = Some b ->
  <[k := b]> (<[l := a]> cells) !! j = Some x ->
  exists j', cells !! j' = Some x
             /\ (j = k -> j' = l) /\ (j <> k -> j = l -> j' = k)
             /\ (j <> k -> j <> l -> j' = j).
Proof.
  intros Hk Hl.
  rewrite swap_lookup by (eapply lookup_lt_Some; eassumption).
  destruct (decide (j = k)) as [->|Hjk].
  - intros [= <-]. exists l. repeat split; congruence.
  - destruct (decide (j = l)) as [->|Hjl].
    + intros [= <-]. exists k. repeat split; congruence.
    + intros Hx. exists j. repeat split; congruence.
Qed.

(** Exchanging two slots keeps the slots pairwise distinct. *)
Lemma swap_NoDup (cells : list N) (k l : nat) (a b : N) :
  cells !! k = Some a -> cells !! l = Some b ->
  NoDup cells -> NoDup (<[k := b]> (<[l := a]> cells)).
Proof.
  intros Hk Hl Hnd. apply NoDup_alt. intros i j x Hi Hj.
  destruct (swap_source _ _ _ _ _ _ _ Hk Hl Hi) as (i' & Hi' & Hi1 & Hi2 & Hi3).
  destruct (swap_source _ _ _ _ _ _ _ Hk Hl Hj) as (j' & Hj' & Hj1 & Hj2 & Hj3).
  pose proof (NoDup_lookup _ _ _ _ Hnd Hi' Hj') as Heq.
  destruct (decide (i = k)), (decide (i = l)), (decide (j = k)), (decide (j = l));
    try specialize (Hi1 ltac:(assumption));
    try specialize (Hi2 ltac:(assumption) ltac:(assumption));
    try specialize (Hi3 ltac:(assumption) ltac:(assumption));
    try specialize (Hj1 ltac:(assumption));
    try specialize (Hj2 ltac:(assumption) ltac:(assumption));
    try specialize (Hj3 ltac:(assumption) ltac:(assumption));
    congruence.
Qed.

(** Exchanging two slots keeps the slots distinct, live and non-null. *)
Lemma swap_owned (cells : list N) (h : heap) (k l : nat) (a b : N) :
  cells !! k = Some a -> cells !! l = Some b ->
  owned cells h -> owned (<[k := b]> (<[l := a]> cells)) h.
Proof.
  intros Hk Hl [Hnd Hall]. split.
  - exact (swap_NoDup _ _ _ _ _ Hk Hl Hnd).
  - apply Forall_lookup. intros j x Hj.
    destruct (swap_source _ _ _ _ _ _ _ Hk Hl Hj) as (j' & Hj' & _).
    rewrite Forall_lookup in Hall. exact (Hall _ _ Hj').
Qed.

Lemma getNext_wf (this : Pool) (h : heap) :
  pool_wf this h ->
  exists a this', getNext this = Returns (a, this')
    /\ pool_wf this' h /\ m_iSize this' = m_iSize this.
Proof.
  intros [Hshape Hown].
  destruct (Z.lt_ge_cases (m_iNextFreePosition this) (m_iSize this)) as [Hlt|Hge].
  - destruct (getNext_free this Hshape Hlt) as (a & _ & Hret).
    eexists _, _. split; [exact Hret|].
    destruct Hshape as (Hsize & Hcur & Hlen).
    split; [|reflexivity]. split; [|exact Hown].
    unfold pool_shape. simpl. lia.
  - rewrite (getNext_exhausted this Hge). eexists _, _.
    split; [reflexivity|]. split; [|reflexivity]. split; assumption.
Qed.

(** [release] on a pool with pairwise distinct slots: either the address
    occupies no active slot and nothing changes, or it occupies the active
    slot [k] and that slot is exchanged with the last active one. *)
Lemma release_cases (this : Pool) (a : N) :
  pool_shape this -> NoDup (m_pArrayLocation this) ->
  (release this a = Returns this
   /\ forall j : nat, Z.of_nat j < m_iNextFreePosition this ->
        m_pArrayLocation this !! j <> Some a)
  \/ (exists (k : nat) (b : N),
        Z.of_nat k < m_iNextFreePosition this
        /\ m_pArrayLocation this !! k = Some a
        /\ m_pArrayLocation this !! Z.to_nat (m_iNextFreePosition this - 1) = Some b
        /\ release this a
           = Returns (mkPool (m_iSize this) (m_iNextFreePosition this - 1)
                        (<[k := b]>
                           (<[Z.to_nat (m_iNextFreePosition this - 1) := a]>
                              (m_pArrayLocation this))))).
Proof.
  intros Hshape Hnd.
  destruct (decide (a ∈ take (Z.to_nat (m_iNextFreePosition this))
                          (m_pArrayLocation this))) as [Hin|Hnin].
  - right. apply list_elem_of_lookup in Hin as [k Hk].
    apply lookup_take_Some in Hk as [Hk Hlt].
    destruct (release_accepts this a k Hshape (first_at_NoDup _ _ _ Hnd Hk))
      as (b & Hb & Hret); [lia|].
    exists k, b. split; [lia|]. split; [exact Hk|]. split; [exact Hb|exact Hret].
  - left. assert (Hfree : forall j : nat, Z.of_nat j < m_iNextFreePosition this ->
                    m_pArrayLocation this !! j <> Some a).
    { intros j Hj Hja. apply Hnin. apply list_elem_of_lookup. exists j.
      rewrite lookup_take_lt by lia. exact Hja. }
    split; [|exact Hfree].
    apply release_rejects; [apply Hshape|exact Hfree].
Qed.

Lemma release_wf (this : Pool) (a : N) (h : heap) :
  pool_wf this h ->
  exists this', release this a = Returns this'
    /\ pool_wf this' h /\ m_iSize this' = m_iSize this.
Proof.
  intros [Hshape Hown].
  destruct (release_cases this a Hshape (proj1 Hown))
    as [[Hret _]|(k & b & Hk & Hka & Hb & Hret)].
  - exists this. split; [exact Hret|]. split; [|reflexivity]. split; assumption.
  - eexists. split; [exact Hret|]. split; [|reflexivity].
    destruct Hshape as (Hsize & Hcur & Hlen). split.
    + unfold pool_shape. simpl. rewrite !length_insert. lia.
    + simpl. apply swap_owned; assumption.
Qed.

(** *** Allocation *)

Lemma new_object_eq (h : heap) :
  new_object h = (fst (new_object h), <[fst (new_object h) := type_default]> h).
Proof. reflexivity. Qed.

Lemma new_object_fresh (h : heap) :
  h !! fst (new_object h) = None /\ fst (new_object h) <> nullptr.
Proof.
  unfold new_object. simpl.
  pose proof (is_fresh ({[nullptr]} ∪ dom h)) as Hfresh.
  apply not_elem_of_union in Hfresh as [Hnull Hdom].
  split.
  - apply not_elem_of_dom. exact Hdom.
  - intros Heq. apply Hnull. rewrite Heq. apply elem_of_singleton. reflexivity.
Qed.

Lemma owned_app_inv (cells1 cells2 : list N) (h : heap) :
  owned (cells1 ++ cells2) h -> owned cells1 h /\ owned cells2 h.
Proof.
  intros [Hnd Hall]. apply NoDup_app in Hnd as (Hnd1 & _ & Hnd2).
  apply Forall_app in Hall as [Hall1 Hall2].
  split; split; assumption.
Qed.

Lemma fill_default_body_allocating :
  allocating fill_default_body type_default (fun _ => True).
Proof.
  intros i cells hc Hi _. unfold fill_default_body.
  cbn [fst snd]. rewrite new_object_eq. cbn [fst snd].
  rewrite write_nat by exact Hi. reflexivity.
Qed.

Lemma load_Returns (a : N) (v : type) (h : heap) :
  h !! a = Some v -> load a h = Returns v.
Proof. intros H. unfold load. rewrite H. reflexivity. Qed.

Lemma clone_into_fresh (src : N) (v : type) (hc : heap) :
  hc !! src = Some v ->
  (w <- load src (snd (new_object hc)) ;;
   store (fst (new_object hc)) w (snd (new_object hc)))
  = Returns (<[fst (new_object hc) := v]> hc).
Proof.
  intros Hsrc. destruct (new_object_fresh hc) as [Hfresh _].
  change (snd (new_object hc)) with (<[fst (new_object hc) := type_default]> hc).
  set (l := fst (new_object hc)) in *.
  rewrite (load_Returns src v).
  - simpl. unfold store. rewrite lookup_insert_eq.
    rewrite insert_insert_eq. reflexivity.
  - rewrite lookup_insert_ne; [exact Hsrc|]. congruence.
Qed.

Lemma fill_clone_body_allocating (a_pObjectToPool : N) (v : type) :
  allocating (fill_clone_body a_pObjectToPool) v
    (fun hc => hc !! a_pObjectToPool = Some v).
Proof.
  intros i cells hc Hi Hsrc. unfold fill_clone_body.
  pose proof (clone_into_fresh a_pObjectToPool v hc Hsrc) as Hclone.
  apply bind_Returns in Hclone as (w & Hw & Hst).
  cbn [fst snd]. destruct (new_object hc) as [l h1].
  cbn [fst snd] in *. rewrite Hw. simpl. rewrite Hst. simpl.
  rewrite write_nat by exact Hi. reflexivity.
Qed.

Lemma size_clone_body_allocating (this : Pool) (a_last : N) (v : type) :
  pool_shape this ->
  m_pArrayLocation this !! Z.to_nat (m_iSize this - 1) = Some a_last ->
  allocating (size_clone_body this) v (fun hc => hc !! a_last = Some v).
Proof.
  intros (Hsize & Hcur & Hlen) Hlast i cells hc Hi Hsrc. unfold size_clone_body.
  pose proof (clone_into_fresh a_last v hc Hsrc) as Hclone.
  apply bind_Returns in Hclone as (w & Hw & Hst).
  cbn [fst snd]. destruct (new_object hc) as [l h1].
  cbn [fst snd] in *. unfold int_sub.
  rewrite int_of_Returns by (unfold is_int, INT_MIN, INT_MAX in *; lia). simpl.
  rewrite (read_Returns _ _ a_last) by (lia || exact Hlast). simpl.
  rewrite Hw. simpl. rewrite Hst. simpl.
  rewrite write_nat by exact Hi. reflexivity.
Qed.

Lemma insert_middle (l1 l2 : list N) (j : nat) (x : N) :
  length l1 = j -> (j < length l1 + length l2)%nat ->
  <[j := x]> (l1 ++ l2) = (l1 ++ [x]) ++ drop 1 l2.
Proof.
  intros Hlen Hj. rewrite insert_app_r_alt by lia.
  replace (j - length l1)%nat with O by lia.
  destruct l2 as [|y l2]; [simpl in Hj; lia|].
  simpl. rewrite drop_0, <- app_assoc. reflexivity.
Qed.

(** An allocating loop over the cells [lo .. hi-1] replaces them by fresh,
    pairwise distinct, non-null objects of value [v] and touches neither the
    other cells nor the other objects. *)
Lemma alloc_loop (body : Z -> list N * heap -> outcome (list N * heap))
    (v : type) (P : heap -> Prop) (lo hi : nat) (cells : list N) (h : heap) :
  allocating body v P ->
  (forall hc l, P hc -> hc !! l = None -> P (<[l := v]> hc)) ->
  (lo <= hi <= length cells)%nat ->
  P h ->
  exists (news : list N) (h' : heap),
    for_loop (Z.of_nat lo) (Z.of_nat hi) body (cells, h)
    = Returns (take lo cells ++ news ++ drop hi cells, h')
    /\ length news = (hi - lo)%nat
    /\ NoDup news
    /\ Forall (fun a => a <> nullptr /\ h !! a = None /\ h' !! a = Some v) news
    /\ (forall a, a ∉ news -> h' !! a = h !! a)
    /\ P h'.
Proof.
  intros Hbody Hstable Hrange HP.
  set (I := fun (j : nat) (s : list N * heap) =>
    exists news : list N,
      fst s = take lo cells ++ news ++ drop j cells
      /\ (lo <= j)%nat /\ length news = (j - lo)%nat
      /\ NoDup news
      /\ Forall (fun a => a <> nullptr /\ h !! a = None /\ snd s !! a = Some v) news
      /\ (forall a, a ∉ news -> snd s !! a = h !! a)
      /\ P (snd s)).
  destruct (for_loop_rule I body lo hi (cells, h)) as ([cs' h'] & Hret & Hinv).
  - lia.
  - exists []. simpl. rewrite take_drop.
    split; [reflexivity|]. split; [lia|]. split; [lia|].
    split; [constructor|]. split; [constructor|]. split; [reflexivity|exact HP].
  - intros j [cs hc] Hj (news & Hcs & Hlo & Hlen & Hnd & Hall & Hrest & HPc).
    simpl in Hcs, Hall, Hrest, HPc.
    assert (Hcslen : length cs = length cells).
    { rewrite Hcs, !length_app, length_take, length_drop. lia. }
    rewrite (Hbody j cs hc ltac:(lia) HPc).
    destruct (new_object_fresh hc) as [Hfresh Hnonnull].
    set (l := fst (new_object hc)) in *.
    assert (Hlnews : l ∉ news).
    { intros Hin. rewrite Forall_forall in Hall.
      destruct (Hall l Hin) as (_ & _ & Hlive). congruence. }
    eexists. split; [reflexivity|].
    exists (news ++ [l]). simpl.
    split.
    { rewrite Hcs, (app_assoc (take lo cells) news).
      rewrite insert_middle.
      - rewrite drop_drop, <- !app_assoc.
        replace (j + 1)%nat with (S j) by lia. reflexivity.
      - rewrite length_app, length_take. lia.
      - rewrite !length_app, length_take, length_drop. lia. }
    split; [lia|]. split; [rewrite length_app; simpl; lia|].
    split.
    { apply NoDup_app. split; [exact Hnd|]. split; [|apply NoDup_singleton].
      intros x Hx Hxl. apply list_elem_of_singleton in Hxl as ->. exact (Hlnews Hx). }
    split.
    { apply Forall_app. split.
      - apply Forall_forall. intros a Ha.
        destruct (proj1 (Forall_forall _ _) Hall a Ha) as (Ha0 & Hah & Hac).
        split; [exact Ha0|]. split; [exact Hah|].
        rewrite lookup_insert_ne; [exact Hac|]. intros ->. exact (Hlnews Ha).
      - apply Forall_singleton. split; [exact Hnonnull|].
        split; [|apply lookup_insert_eq].
        rewrite <- (Hrest l Hlnews). exact Hfresh. }
    split.
    { intros a Ha. apply not_elem_of_app in Ha as [Ha Hal].
      rewrite lookup_insert_ne; [exact (Hrest a Ha)|].
      intros ->. apply Hal. apply list_elem_of_singleton. reflexivity. }
    apply Hstable; assumption.
  - destruct Hinv as (news & Hcs & _ & Hlen & Hnd & Hall & Hrest & HPc).
    simpl in Hcs, Hall, Hrest, HPc. subst cs'.
    exists news, h'. repeat (split; [assumption|]). exact HPc.
Qed.

Lemma owned_fresh (news : list N) (h h' : heap) (v : type) :
  NoDup news ->
  Forall (fun a => a <> nullptr /\ h !! a = None /\ h' !! a = Some v) news ->
  owned news h'.
Proof.
  intros Hnd Hall. split; [exact Hnd|].
  eapply Forall_impl; [exact Hall|]. simpl.
  intros a (Ha0 & _ & Hlive). split; [exact Ha0|]. rewrite Hlive. eauto.
Qed.

(** The loop shared by the constructors. *)
Lemma ctor_loop (body : Z -> list N * heap -> outcome (list N * heap))
    (v : type) (P : heap -> Prop) (n : Z) (h : heap) :
  allocating body v P ->
  (forall hc l, P hc -> hc !! l = None -> P (<[l := v]> hc)) ->
  0 <= n ->
  P h ->
  exists (cells : list N) (h' : heap),
    for_loop 0 n body (new_array n, h) = Returns (cells, h')
    /\ Z.of_nat (length cells) = n
    /\ owned cells h'
    /\ Forall (fun a => h !! a = None /\ h' !! a = Some v) cells
    /\ (forall a, a ∉ cells -> h' !! a = h !! a).
Proof.
  intros Hbody Hstable Hn HP.
  destruct (alloc_loop body v P 0 (Z.to_nat n) (new_array n) h Hbody Hstable)
    as (news & h' & Hret & Hlen & Hnd & Hall & Hrest & _).
  - unfold new_array. rewrite length_replicate. lia.
  - exact HP.
  - exists news, h'.
    rewrite Z2Nat.id in Hret by lia. change (Z.of_nat 0) with 0 in Hret.
    rewrite Hret. rewrite take_0, drop_ge, app_nil_r
      by (unfold new_array; rewrite length_replicate; lia).
    split; [reflexivity|]. split; [lia|].
    split; [exact (owned_fresh _ _ _ _ Hnd Hall)|].
    split; [|exact Hrest].
    eapply Forall_impl; [exact Hall|]. simpl. tauto.
Qed.

Lemma Pool_sized_spec (a_iSize : Z) (h : heap) :
  0 < a_iSize <= INT_MAX ->
  exists (cells : list N) (h' : heap),
    Pool_sized a_iSize h = Returns (Some (mkPool a_iSize 0 cells), h')
    /\ pool_wf (mkPool a_iSize 0 cells) h'
    /\ Forall (fun a => h !! a = None /\ h' !! a = Some type_default) cells
    /\ (forall a, a ∉ cells -> h' !! a = h !! a).
Proof.
  intros Hsize. unfold Pool_sized.
  destruct (Z.ltb_spec 0 a_iSize) as [_|]; [|lia].
  destruct (ctor_loop fill_default_body type_default (fun _ => True) a_iSize h
              fill_default_body_allocating) as (cells & h' & Hret & Hlen & Hown & Hnew & Hrest);
    [auto | lia | exact I |].
  exists cells, h'. rewrite Hret. simpl. split; [reflexivity|].
  split; [|split; assumption].
  split; [|exact Hown]. unfold pool_shape. simpl. lia.
Qed.

Lemma Pool_default_spec (h : heap) :
  exists (cells : list N) (h' : heap),
    Pool_default h = Returns (Some (mkPool 10 0 cells), h')
    /\ pool_wf (mkPool 10 0 cells) h'
    /\ Forall (fun a => h !! a = None /\ h' !! a = Some type_default) cells
    /\ (forall a, a ∉ cells -> h' !! a = h !! a).
Proof.
  unfold Pool_default.
  destruct (ctor_loop fill_default_body type_default (fun _ => True) 10 h
              fill_default_body_allocating) as (cells & h' & Hret & Hlen & Hown & Hnew & Hrest);
    [auto | lia | exact I |].
  exists cells, h'. cbv zeta. rewrite Hret. simpl. split; [reflexivity|].
  split; [|split; assumption].
  split; [|exact Hown]. unfold pool_shape, INT_MAX. simpl. lia.
Qed.

Lemma Pool_cloned_spec (a_pObjectToPool : N) (v : type) (a_iSize : Z) (h : heap) :
  0 < a_iSize <= INT_MAX ->
  h !! a_pObjectToPool = Some v ->
  exists (cells : list N) (h' : heap),
    Pool_cloned a_pObjectToPool a_iSize h
    = Returns (Some (mkPool a_iSize 0 cells), h')
    /\ pool_wf (mkPool a_iSize 0 cells) h'
    /\ Forall (fun a => h !! a = None /\ h' !! a = Some v) cells
    /\ (forall a, a ∉ cells -> h' !! a = h !! a).
Proof.
  intros Hsize Hsrc. unfold Pool_cloned.
  destruct (Z.ltb_spec 0 a_iSize) as [_|]; [|lia].
  destruct (ctor_loop (fill_clone_body a_pObjectToPool) v
              (fun hc => hc !! a_pObjectToPool = Some v) a_iSize h
              (fill_clone_body_allocating a_pObjectToPool v))
    as (cells & h' & Hret & Hlen & Hown & Hnew & Hrest).
  - intros hc l Hc Hl. rewrite lookup_insert_ne; [exact Hc|]. congruence.
  - lia.
  - exact Hsrc.
  - exists cells, h'. rewrite Hret. simpl. split; [reflexivity|].
    split; [|split; assumption].
    split; [|exact Hown]. unfold pool_shape. simpl. lia.
Qed.

(** *** The loops of [size] *)

(** The first loop copies the common prefix of the two arrays. *)
Lemma copy_loop (old arr : list N) (m : nat) :
  (m <= length old)%nat -> (m <= length arr)%nat ->
  for_loop 0 (Z.of_nat m) (size_copy_body old) arr
  = Returns (take m old ++ drop m arr).
Proof.
  intros Hold Harr.
  destruct (for_loop_rule (fun j cs => cs = take j old ++ drop j arr)
              (size_copy_body old) 0 m arr) as (cs & Hret & ->).
  - lia.
  - rewrite take_0, drop_0. reflexivity.
  - intros j cs Hj ->.
    destruct (lookup_lt_is_Some_2 old j) as [x Hx]; [lia|].
    unfold size_copy_body. rewrite (read_nat _ _ _ Hx). simpl.
    rewrite write_nat by (rewrite length_app, length_take, length_drop; lia).
    eexists. split; [reflexivity|].
    rewrite insert_middle.
    + rewrite drop_drop, (take_S_r _ _ _ Hx).
      replace (j + 1)%nat with (S j) by lia. reflexivity.
    + rewrite length_take. lia.
    + rewrite length_take, length_drop. lia.
  - exact Hret.
Qed.

(** The third loop deletes the objects of the cells [lo .. hi-1]. *)
Lemma delete_loop (old : list N) (h : heap) (lo hi : nat) :
  (lo <= hi <= length old)%nat ->
  owned old h ->
  exists h' : heap,
    for_loop (Z.of_nat lo) (Z.of_nat hi) (size_delete_body old) h = Returns h'
    /\ (forall a, a ∈ drop lo (take hi old) -> h' !! a = None)
    /\ (forall a, a ∉ drop lo (take hi old) -> h' !! a = h !! a).
Proof.
  intros Hrange [Hnd Hall].
  apply (for_loop_rule
           (fun j hc => (forall a, a ∈ drop lo (take j old) -> hc !! a = None)
                        /\ (forall a, a ∉ drop lo (take j old) -> hc !! a = h !! a))
           (size_delete_body old) lo hi h).
  - lia.
  - rewrite drop_ge by (rewrite length_take; lia).
    split; [intros a Ha; inversion Ha | reflexivity].
  - intros j hc Hj [Hgone Hkept].
    destruct (lookup_lt_is_Some_2 old j) as [x Hx]; [lia|].
    assert (Hstep : drop lo (take (S j) old) = drop lo (take j old) ++ [x]).
    { rewrite (take_S_r _ _ _ Hx), drop_app_le by (rewrite length_take; lia).
      reflexivity. }
    assert (Hxnot : x ∉ drop lo (take j old)).
    { intros Hin. apply list_elem_of_lookup in Hin as [i Hi].
      rewrite lookup_drop in Hi. apply lookup_take_Some in Hi as [Hi Hlt].
      pose proof (NoDup_lookup _ _ _ _ Hnd Hi Hx). lia. }
    destruct (proj1 (Forall_lookup _ _) Hall j x Hx) as [Hx0 [w Hw]].
    unfold size_delete_body. rewrite (read_nat _ _ _ Hx). simpl.
    unfold delete_object. destruct (N.eqb_spec x nullptr) as [|_]; [contradiction|].
    rewrite (Hkept x Hxnot), Hw.
    eexists. split; [reflexivity|]. rewrite Hstep. split.
    + intros a Ha. apply elem_of_app in Ha as [Ha|Ha].
      * destruct (decide (a = x)) as [->|Hne]; [apply lookup_delete_eq|].
        rewrite lookup_delete_ne by congruence. exact (Hgone a Ha).
      * apply list_elem_of_singleton in Ha as ->. apply lookup_delete_eq.
    + intros a Ha. apply not_elem_of_app in Ha as [Ha Hax].
      rewrite lookup_delete_ne; [exact (Hkept a Ha)|].
      intros ->. apply Hax. apply list_elem_of_singleton. reflexivity.
Qed.

(** *** Facts about [size] *)

Lemma size_set_rejects (this : Pool) (a_iNewSize : Z) (h : heap) :
  a_iNewSize <= 0 -> size_set this a_iNewSize h = Returns (false, this, h).
Proof.
  intros Hle. unfold size_set.
  destruct (Z.ltb_spec 0 a_iNewSize); [lia|reflexivity].
Qed.

(** Whatever its loops do, an accepted resize releases the old array with
    the single-object [delete]. *)
Lemma size_set_accepted (this : Pool) (a_iNewSize : Z) (h : heap) :
  0 < a_iNewSize -> size_set this a_iNewSize h = Undefined.
Proof.
  intros Hpos. unfold size_set.
  destruct (Z.ltb_spec 0 a_iNewSize); [|lia].
  destruct (size_loops this a_iNewSize h); reflexivity.
Qed.

Lemma size_loops_grow (this : Pool) (a_iNewSize : Z) (h : heap) :
  pool_wf this h ->
  m_iSize this < a_iNewSize <= INT_MAX ->
  exists (a_last : N) (v : type) (news : list N) (h' : heap),
    m_pArrayLocation this !! Z.to_nat (m_iSize this - 1) = Some a_last
    /\ h !! a_last = Some v
    /\ size_loops this a_iNewSize h = Returns (m_pArrayLocation this ++ news, h')
    /\ Z.of_nat (length news) = a_iNewSize - m_iSize this
    /\ NoDup news
    /\ Forall (fun a => a <> nullptr /\ h !! a = None /\ h' !! a = Some v) news
    /\ (forall a, a ∉ news -> h' !! a = h !! a).
Proof.
  intros [Hshape [Hnd Hall]] Hnew.
  pose proof Hshape as (Hsize & Hcur & Hlen).
  destruct (lookup_lt_is_Some_2 (m_pArrayLocation this)
              (Z.to_nat (m_iSize this - 1))) as [a_last Hlast]; [lia|].
  destruct (proj1 (Forall_lookup _ _) Hall _ _ Hlast) as [_ [v Hv]].
  set (cells := m_pArrayLocation this) in *.
  set (arr1 := cells ++ drop (length cells) (new_array a_iNewSize)).
  assert (Harr1 : length arr1 = Z.to_nat a_iNewSize).
  { unfold arr1, new_array.
    rewrite length_app, length_drop, length_replicate. lia. }
  destruct (alloc_loop (size_clone_body this) v (fun hc => hc !! a_last = Some v)
              (length cells) (Z.to_nat a_iNewSize) arr1 h)
    as (news & h' & Hret & Hnlen & Hnnd & Hnall & Hrest & _).
  { apply size_clone_body_allocating; assumption. }
  { intros hc l Hc Hl. rewrite lookup_insert_ne; [exact Hc|]. congruence. }
  { lia. }
  { exact Hv. }
  exists a_last, v, news, h'.
  split; [exact Hlast|]. split; [exact Hv|].
  split; [|split; [lia|split; [exact Hnnd|split; assumption]]].
  unfold size_loops. cbv zeta.
  replace (Z.min a_iNewSize (m_iSize this)) with (Z.of_nat (length cells)) by lia.
  rewrite copy_loop
    by (unfold new_array; rewrite ?length_replicate; fold cells; lia).
  fold cells. rewrite take_ge by lia. fold arr1. cbn [bind].
  replace (m_iSize this) with (Z.of_nat (length cells)) at 1 by lia.
  rewrite <- (Z2Nat.id a_iNewSize) at 1 by lia.
  rewrite Hret. cbn [bind fst snd].
  rewrite for_loop_empty by lia. cbn [bind].
  unfold arr1. rewrite take_app_length, drop_ge, app_nil_r by (fold arr1; lia).
  reflexivity.
Qed.

Lemma size_loops_shrink (this : Pool) (a_iNewSize : Z) (h : heap) :
  pool_wf this h ->
  0 < a_iNewSize < m_iSize this ->
  exists h' : heap,
    size_loops this a_iNewSize h
    = Returns (take (Z.to_nat a_iNewSize) (m_pArrayLocation this), h')
    /\ (forall a, a ∈ drop (Z.to_nat a_iNewSize) (m_pArrayLocation this) ->
          h' !! a = None)
    /\ (forall a, a ∉ drop (Z.to_nat a_iNewSize) (m_pArrayLocation this) ->
          h' !! a = h !! a).
Proof.
  intros [Hshape Hown] Hnew.
  pose proof Hshape as (Hsize & Hcur & Hlen).
  set (cells := m_pArrayLocation this) in *.
  destruct (delete_loop cells h (Z.to_nat a_iNewSize) (length cells))
    as (h' & Hret & Hgone & Hkept); [lia|exact Hown|].
  rewrite take_ge in Hgone, Hkept by lia.
  exists h'. split; [|split; assumption].
  unfold size_loops. cbv zeta.
  replace (Z.min a_iNewSize (m_iSize this))
    with (Z.of_nat (Z.to_nat a_iNewSize)) by lia.
  rewrite copy_loop
    by (unfold new_array; rewrite ?length_replicate; fold cells; lia).
  fold cells. cbn [bind].
  rewrite for_loop_empty by lia. cbn [bind fst snd].
  rewrite Z2Nat.id in Hret by lia.
  replace (m_iSize this) with (Z.of_nat (length cells)) by lia.
  rewrite Hret. cbn [bind].
  rewrite drop_ge, app_nil_r by (unfold new_array; rewrite length_replicate; lia).
  reflexivity.
Qed.

Lemma size_loops_same (this : Pool) (h : heap) :
  pool_wf this h ->
  size_loops this (m_iSize this) h = Returns (m_pArrayLocation this, h).
Proof.
  intros [Hshape Hown].
  pose proof Hshape as (Hsize & Hcur & Hlen).
  unfold size_loops. cbv zeta.
  replace (Z.min (m_iSize this) (m_iSize this))
    with (Z.of_nat (length (m_pArrayLocation this))) by lia.
  rewrite copy_loop
    by (unfold new_array; rewrite ?length_replicate; lia).
  cbn [bind]. rewrite for_loop_empty by lia. cbn [bind fst snd].
  rewrite for_loop_empty by lia. cbn [bind].
  rewrite take_ge, drop_ge, app_nil_r
    by (unfold new_array; rewrite ?length_replicate; lia).
  reflexivity.
Qed.

Lemma owned_take (cells : list N) (h : heap) (n : nat) :
  owned cells h -> owned (take n cells) h.
Proof.
  intros Hown. rewrite <- (take_drop n cells) in Hown.
  exact (proj1 (owned_app_inv _ _ _ Hown)).
Qed.

Lemma take_drop_disjoint (cells : list N) (n : nat) (a : N) :
  NoDup cells -> a ∈ take n cells -> a ∉ drop n cells.
Proof.
  intros Hnd. rewrite <- (take_drop n cells) in Hnd.
  apply NoDup_app in Hnd as (_ & Hdisj & _). apply Hdisj.
Qed.

Lemma step_wf (o : op) (this : Pool) (h : heap) :
  pool_wf this h ->
  ~ accepts_resize o ->
  exists (this' : Pool) (h' : heap),
    step o (this, h) = Returns (this', h') /\ pool_wf this' h'.
Proof.
  intros Hwf Hrej. destruct o as [|a|n]; simpl.
  - destruct (getNext_wf this h Hwf) as (a & this' & Hret & Hwf' & _).
    rewrite Hret. simpl. eauto.
  - destruct (release_wf this a h Hwf) as (this' & Hret & Hwf' & _).
    rewrite Hret. simpl. eauto.
  - simpl in Hrej. rewrite size_set_rejects by lia. simpl. eauto.
Qed.

(** The code moves the boundary as the specification says. *)
Lemma step_boundary (o : op) (this this' : Pool) (h h' : heap) :
  pool_wf this h ->
  step o (this, h) = Returns (this', h') ->
  m_iNextFreePosition this' = spec_cursor_after o this.
Proof.
  intros Hwf. pose proof Hwf as [Hshape [Hnd Hall]].
  pose proof Hshape as (Hsize & Hcur & Hlen).
  destruct o as [|a|n]; cbn [step fst snd spec_cursor_after].
  - destruct (Z.ltb_spec (m_iNextFreePosition this) (m_iSize this)) as [Hlt|Hge].
    + destruct (getNext_free this Hshape Hlt) as (a & _ & Hret).
      rewrite Hret. cbn [bind fst snd]. intros [= <- _]. reflexivity.
    + rewrite (getNext_exhausted this Hge). cbn [bind fst snd].
      intros [= <- _]. reflexivity.
  - destruct (release_cases this a Hshape Hnd)
      as [[Hret Hfree]|(k & b & Hk & Hka & _ & Hret)];
      rewrite Hret; cbn [bind]; intros [= <- _].
    + rewrite bool_decide_eq_false_2; [reflexivity|].
      intros Hin. apply elem_of_take in Hin as (j & Hj & Hlt).
      apply (Hfree j); [lia|exact Hj].
    + rewrite bool_decide_eq_true_2; [reflexivity|].
      apply elem_of_take. exists k. split; [exact Hka|lia].
  - destruct (Z.ltb_spec 0 n) as [Hpos|Hle]; cbn [andb].
    + rewrite size_set_accepted by exact Hpos. discriminate.
    + rewrite size_set_rejects by lia. cbn [bind fst snd].
      intros [= <- _]. reflexivity.
Qed.

Lemma run_wf (ops : list op) :
  forall (this : Pool) (h : heap),
  pool_wf this h ->
  Forall (fun o => ~ accepts_resize o) ops ->
  exists trace : list (Pool * heap),
    run ops (this, h) = Returns trace
    /\ length trace = length ops
    /\ Forall (fun s => pool_wf (fst s) (snd s)) trace
    /\ boundary_moves ops this trace.
Proof.
  induction ops as [|o ops IH]; intros this h Hwf Hargs; simpl.
  - exists []. split; [reflexivity|]. split; [reflexivity|].
    split; [constructor|exact I].
  - apply Forall_cons in Hargs as [Ho Hops].
    destruct (step_wf o this h Hwf Ho) as (this' & h' & Hstep & Hwf').
    destruct (IH this' h' Hwf' Hops) as (trace & Hrun & Hlen & Hall & Hmoves).
    rewrite Hstep. cbn [bind]. rewrite Hrun. cbn [bind].
    exists ((this', h') :: trace). split; [reflexivity|].
    split; [simpl; lia|]. split; [constructor; assumption|].
    split; [|exact Hmoves].
    exact (step_boundary o this this' h h' Hwf Hstep).
Qed.

(** A sequence with an accepted resize in it does not run to its end. *)
Lemma run_accepted_resize (ops : list op) :
  forall s : Pool * heap,
  Exists accepts_resize ops -> run ops s = Undefined.
Proof.
  induction ops as [|o ops IH]; intros s Hex.
  - inversion Hex.
  - cbn [run]. apply Exists_cons in Hex as [Ho|Hops].
    + destruct o as [| |n]; simpl in Ho; try contradiction.
      cbn [step]. rewrite size_set_accepted by exact Ho. reflexivity.
    + destruct (step o s) as [s'|]; [|reflexivity].
      cbn [bind]. rewrite (IH s' Hops). reflexivity.
Qed.

Lemma constructed_wf (this : Pool) (h : heap) :
  constructed this h -> pool_wf this h.
Proof.
  intros [(h0 & Hret)|[(n & h0 & [_ Hmax] & Hret)|(tpl & n & h0 & [_ Hmax] & [v Hv] & Hret)]].
  - destruct (Pool_default_spec h0) as (cells & h' & Heq & Hwf & _).
    rewrite Heq in Hret. injection Hret as <- <-. exact Hwf.
  - destruct (Z.le_gt_cases n 0) as [Hle|Hpos].
    + unfold Pool_sized in Hret.
      destruct (Z.ltb_spec 0 n); [lia|]. discriminate Hret.
    + destruct (Pool_sized_spec n h0 ltac:(lia)) as (cells & h' & Heq & Hwf & _).
      rewrite Heq in Hret. injection Hret as <- <-. exact Hwf.
  - destruct (Z.le_gt_cases n 0) as [Hle|Hpos].
    + unfold Pool_cloned in Hret.
      destruct (Z.ltb_spec 0 n); [lia|]. discriminate Hret.
    + destruct (Pool_cloned_spec tpl v n h0 ltac:(lia) Hv)
        as (cells & h' & Heq & Hwf & _).
      rewrite Heq in Hret. injection Hret as <- <-. exact Hwf.
Qed.

(** [release] returns on every pool of the right shape. *)
Lemma release_returns (this : Pool) (a : N) :
  pool_shape this -> exists this', release this a = Returns this'.
Proof.
  intros Hshape. pose proof Hshape as (Hsize & Hcur & Hlen).
  destruct (release_search_spec (m_pArrayLocation this) a
              (Z.to_nat (m_iSize this)) 0 ltac:(lia))
    as [[_ Hnone]|(k & Hk & _ & Hka & Hbefore)].
  - exists this. apply release_rejects; [exact Hlen|].
    intros j Hj. apply Hnone. lia.
  - destruct (Z.lt_ge_cases (Z.of_nat k) (m_iNextFreePosition this)) as [Hlt|Hge].
    + destruct (release_accepts this a k Hshape) as (b & _ & Hret); [|exact Hlt|eauto].
      split; [exact Hka|]. apply Forall_forall. intros x Hx ->.
      apply list_elem_of_lookup in Hx as [j Hj].
      apply lookup_take_Some in Hj as [Hj Hjk].
      apply (Hbefore j); [lia|exact Hj].
    + exists this. apply release_rejects; [exact Hlen|].
      intros j Hj Hja. apply (Hbefore j); [lia|exact Hja].
Qed.

(** [n] retrievals in a row from a pool with at least [n] free slots hand out
    the first [n] free slots, in order. *)
Lemma getNext_times_spec (n : nat) :
  forall this : Pool,
  pool_shape this ->
  Z.of_nat n <= m_iSize this - m_iNextFreePosition this ->
  getNext_times n this
  = Returns (take n (drop (Z.to_nat (m_iNextFreePosition this)) (m_pArrayLocation this)),
             mkPool (m_iSize this) (m_iNextFreePosition this + Z.of_nat n)
               (m_pArrayLocation this)).
Proof.
  induction n as [|n IH]; intros this Hshape Hn; simpl.
  - rewrite Z.add_0_r. destruct this; reflexivity.
  - destruct (getNext_free this Hshape ltac:(lia)) as (a & Ha & Hret).
    rewrite Hret. cbn [bind fst snd].
    rewrite IH; cbn [m_iSize m_iNextFreePosition m_pArrayLocation].
    + cbn [bind fst snd]. f_equal. f_equal.
      * rewrite (drop_S _ _ _ Ha). simpl.
        replace (Z.to_nat (m_iNextFreePosition this + 1))
          with (S (Z.to_nat (m_iNextFreePosition this)))
          by (destruct Hshape as (_ & ? & _); lia).
        reflexivity.
      * f_equal. lia.
    + destruct Hshape as (Hsize & Hcur & Hlen). unfold pool_shape. simpl. lia.
    + lia.
Qed.

(** ** The properties of the specification *)

(** C1 (the code, with and without an accepted resize). On a pool left by
    any of the constructors, every sequence of [getNext], [release] and
    rejected [size(int)] calls runs without undefined behaviour,
    [0 <= m_iNextFreePosition <= m_iSize] holds initially and after every
    call, and each call moves the boundary as the specification says. A
    sequence in which [size(int)] accepts a resize does not: the accepted
    call releases the old array, which came from [new type*[n]], with the
    single-object [delete], and the behaviour of the sequence is undefined,
    so nothing holds after that call. *)
Theorem partition_invariant_until_accepted_resize
    (this : Pool) (h : heap) (ops : list op) :
  constructed this h ->
  (Forall (fun o => ~ accepts_resize o) ops ->
     exists trace : list (Pool * heap),
       run ops (this, h) = Returns trace
       /\ length trace = length ops
       /\ Forall (fun s => partition_invariant (fst s)) ((this, h) :: trace)
       /\ boundary_moves ops this trace)
  /\ (Exists accepts_resize ops -> run ops (this, h) = Undefined).
Proof.
  intros Hctor. split; [|apply run_accepted_resize].
  intros Hargs.
  pose proof (constructed_wf this h Hctor) as Hwf.
  destruct (run_wf ops this h Hwf Hargs) as (trace & Hrun & Hlen & Hall & Hmoves).
  exists trace. split; [exact Hrun|]. split; [exact Hlen|].
  split; [|exact Hmoves].
  assert (Hinv : forall s : Pool * heap,
            pool_wf (fst s) (snd s) -> partition_invariant (fst s)).
  { intros s [(_ & Hcur & _) _]. exact Hcur. }
  constructor.
  - exact (Hinv (this, h) Hwf).
  - eapply Forall_impl; [exact Hall|exact Hinv].
Qed.

(** C2. Release of an active object. When the address passed to [release]
    is found at slot [k] and [k] is below [m_iNextFreePosition], the address
    moves to slot [m_iNextFreePosition - 1], the address formerly there moves
    to slot [k], [m_iNextFreePosition] decreases by one, and no other slot
    and no other field changes. *)
Theorem release_swaps_with_last_active (this : Pool) (a : N) (k : nat) :
  pool_shape this ->
  first_at (m_pArrayLocation this) a k ->
  Z.of_nat k < m_iNextFreePosition this ->
  let last := Z.to_nat (m_iNextFreePosition this - 1) in
  exists (b : N) (this' : Pool),
    m_pArrayLocation this !! last = Some b
    /\ release this a = Returns this'
    /\ m_pArrayLocation this' !! last = Some a
    /\ m_pArrayLocation this' !! k = Some b
    /\ m_iNextFreePosition this' = m_iNextFreePosition this - 1
    /\ m_iSize this' = m_iSize this
    /\ length (m_pArrayLocation this') = length (m_pArrayLocation this)
    /\ forall j : nat, j <> k -> j <> last ->
         m_pArrayLocation this' !! j = m_pArrayLocation this !! j.
Proof.
  intros Hshape Hfirst Hk last.
  destruct (release_accepts this a k Hshape Hfirst Hk) as (b & Hb & Hret).
  fold last in Hb, Hret.
  pose proof (first_at_lt _ _ _ Hfirst) as Hklt.
  pose proof (lookup_lt_Some _ _ _ Hb) as Hllt.
  eexists b, _. split; [exact Hb|]. split; [exact Hret|]. simpl.
  split.
  { rewrite swap_lookup by assumption.
    destruct (decide (last = k)) as [Heq|_].
    - destruct Hfirst as [Hka _]. rewrite Heq in Hb. congruence.
    - destruct (decide (last = last)); [reflexivity|congruence]. }
  split.
  { rewrite swap_lookup by assumption.
    destruct (decide (k = k)); [reflexivity|congruence]. }
  split; [reflexivity|]. split; [reflexivity|].
  split; [rewrite !length_insert; reflexivity|].
  intros j Hjk Hjl. rewrite swap_lookup by assumption.
  destruct (decide (j = k)); [congruence|].
  destruct (decide (j = last)); [congruence|reflexivity].
Qed.

(** C3. Retrieval. When [m_iNextFreePosition < m_iSize], [getNext] returns
    the address held by slot [m_iNextFreePosition], which is not null, and
    increments [m_iNextFreePosition]; when [m_iNextFreePosition == m_iSize]
    it returns [nullptr], its report of exhaustion, and changes nothing. So
    [m_iSize] calls on a pool with no active object hand out all the slots,
    the next call reports exhaustion, and [activeCount()] is [m_iSize]. *)
Theorem getNext_hands_out_or_is_exhausted (this : Pool) (h : heap) :
  pool_wf this h ->
  (m_iNextFreePosition this < m_iSize this ->
     exists a : N,
       m_pArrayLocation this !! Z.to_nat (m_iNextFreePosition this) = Some a
       /\ getNext this
          = Returns (a, mkPool (m_iSize this) (m_iNextFreePosition this + 1)
                          (m_pArrayLocation this))
       /\ spec_retrieve_result a = inr a)
  /\ (m_iNextFreePosition this = m_iSize this ->
        exists r : N,
          getNext this = Returns (r, this)
          /\ spec_retrieve_result r = inl PoolExhausted)
  /\ (m_iNextFreePosition this = 0 ->
        let full := mkPool (m_iSize this) (m_iSize this) (m_pArrayLocation this) in
        getNext_times (Z.to_nat (m_iSize this)) this
        = Returns (m_pArrayLocation this, full)
        /\ Forall (fun a => spec_retrieve_result a = inr a) (m_pArrayLocation this)
        /\ (exists r : N,
              getNext full = Returns (r, full)
              /\ spec_retrieve_result r = inl PoolExhausted)
        /\ activeCount full = size full).
Proof.
  intros [Hshape [Hnd Hall]]. pose proof Hshape as (Hsize & Hcur & Hlen).
  assert (Hread : forall a, a <> nullptr -> spec_retrieve_result a = inr a).
  { intros a Ha. unfold spec_retrieve_result.
    destruct (N.eqb_spec a nullptr); [contradiction|reflexivity]. }
  split; [|split].
  - intros Hlt. destruct (getNext_free this Hshape Hlt) as (a & Ha & Hret).
    exists a. split; [exact Ha|]. split; [exact Hret|].
    apply Hread. exact (proj1 (proj1 (Forall_lookup _ _) Hall _ _ Ha)).
  - intros Heq. exists nullptr.
    split; [apply getNext_exhausted; lia|reflexivity].
  - intros Hzero full. split; [|split; [|split]].
    + rewrite getNext_times_spec by (assumption || lia).
      rewrite Hzero. simpl. rewrite drop_0, take_ge by lia.
      unfold full. repeat f_equal. lia.
    + eapply Forall_impl; [exact Hall|]. simpl. intros a [Ha _]. exact (Hread a Ha).
    + exists nullptr. split; [apply getNext_exhausted; simpl; lia|reflexivity].
    + reflexivity.
Qed.

(** C4 (amended). Rejected release. When the address passed to [release] is
    not found in the array, or is found at a slot that is not below
    [m_iNextFreePosition], [release] returns normally, hands nothing back to
    its caller (it is [void] and the [throw] is commented out), and leaves
    every field of the pool unchanged. In particular this holds when
    [m_iNextFreePosition] is 0, and for the second of two calls in a row
    with the same address on a pool whose slots are pairwise distinct. *)
Theorem release_of_inactive_is_silent_noop (this : Pool) (a : N) :
  pool_shape this ->
  ((a ∉ m_pArrayLocation this
    \/ exists k : nat, first_at (m_pArrayLocation this) a k
                       /\ m_iNextFreePosition this <= Z.of_nat k) ->
     release this a = Returns this /\ release_result this a = Returns tt)
  /\ (m_iNextFreePosition this = 0 ->
        release this a = Returns this /\ release_result this a = Returns tt)
  /\ (NoDup (m_pArrayLocation this) ->
        exists this1 : Pool,
          release this a = Returns this1
          /\ release this1 a = Returns this1
          /\ release_result this1 a = Returns tt).
Proof.
  intros Hshape. pose proof Hshape as (Hsize & Hcur & Hlen).
  assert (Hsilent : forall p : Pool,
            release p a = Returns p -> release_result p a = Returns tt).
  { intros p Hp. unfold release_result. rewrite Hp. reflexivity. }
  split; [|split].
  - intros Hcase.
    assert (Hret : release this a = Returns this).
    { apply release_rejects; [exact Hlen|]. intros j Hj Hja.
      destruct Hcase as [Hnin|(k & Hfirst & Hk)].
      - apply Hnin. apply list_elem_of_lookup. eauto.
      - apply (first_at_before _ _ _ j Hfirst); [lia|exact Hja]. }
    split; [exact Hret|exact (Hsilent _ Hret)].
  - intros Hzero.
    assert (Hret : release this a = Returns this).
    { apply release_rejects; [exact Hlen|]. intros j Hj. lia. }
    split; [exact Hret|exact (Hsilent _ Hret)].
  - intros Hnd.
    destruct (release_cases this a Hshape Hnd)
      as [[Hret _]|(k & b & Hk & Hka & Hb & Hret)].
    + exists this. split; [exact Hret|]. split; [exact Hret|exact (Hsilent _ Hret)].
    + eexists. split; [exact Hret|].
      pose proof (lookup_lt_Some _ _ _ Hka) as Hklt.
      pose proof (lookup_lt_Some _ _ _ Hb) as Hllt.
      pose proof (swap_NoDup _ _ _ _ _ Hka Hb Hnd) as Hnd'.
      match goal with |- release ?p a = _ /\ _ =>
        assert (Hret' : release p a = Returns p) end.
      { apply release_rejects; simpl.
        - rewrite !length_insert. exact Hlen.
        - intros j Hj Hja.
          assert (Hlast : <[k := b]> (<[Z.to_nat (m_iNextFreePosition this - 1) := a]>
                     (m_pArrayLocation this))
                     !! Z.to_nat (m_iNextFreePosition this - 1) = Some a).
          { rewrite swap_lookup by assumption.
            destruct (decide (Z.to_nat (m_iNextFreePosition this - 1) = k)) as [Heq|_].
            - rewrite Heq in Hb. congruence.
            - destruct (decide (Z.to_nat (m_iNextFreePosition this - 1)
                                = Z.to_nat (m_iNextFreePosition this - 1)));
                [reflexivity|congruence]. }
          pose proof (NoDup_lookup _ _ _ _ Hnd' Hja Hlast). lia. }
      split; [exact Hret'|exact (Hsilent _ Hret')].
Qed.

(** C5 (the code on a size that is not positive). Both sized constructors
    take the branch [delete this]: no array and no object is allocated, the
    destructor runs on an object whose [m_pArrayLocation] was never assigned
    and whose [m_iSize] is still the default 10, and the behaviour is
    undefined. No failure is handed to the caller. *)
Theorem constructor_nonpositive_size_deletes_this
    (a_pObjectToPool : N) (a_iSize : Z) (h : heap) :
  a_iSize <= 0 ->
  Pool_sized a_iSize h = Undefined
  /\ Pool_cloned a_pObjectToPool a_iSize h = Undefined
  /\ Pool_dtor 10 Unassigned h = Undefined.
Proof.
  intros Hle. unfold Pool_sized, Pool_cloned.
  destruct (Z.ltb_spec 0 a_iSize); [lia|]. repeat split; reflexivity.
Qed.

(** C6 (the code on a growth). For [a_iNewSize] above [m_iSize], the loops
    of [size(a_iNewSize)] build what the claim describes: the new array
    keeps every slot below the old [m_iSize] (the same address at the same
    index), no object that was live changes, and the slots from the old
    [m_iSize] up to [a_iNewSize] hold addresses of new objects: not null,
    not live before the call, in no old slot, pairwise distinct, and each
    holding the value that the object of the old last slot holds at the
    time of the call. The call then releases the old array, which came from
    [new type*[n]], with the single-object [delete]: its behaviour is
    undefined and it does not return [true]. *)
Theorem size_growth_clones_then_misdeletes_array
    (this : Pool) (a_iNewSize : Z) (h : heap) :
  pool_wf this h ->
  is_int a_iNewSize ->
  m_iSize this < a_iNewSize ->
  size_set this a_iNewSize h = Undefined
  /\ exists (a_last : N) (v : type) (cells' : list N) (h' : heap),
       m_pArrayLocation this !! Z.to_nat (m_iSize this - 1) = Some a_last
       /\ h !! a_last = Some v
       /\ size_loops this a_iNewSize h = Returns (cells', h')
       /\ Z.of_nat (length cells') = a_iNewSize
       /\ (forall i : nat, Z.of_nat i < m_iSize this ->
             cells' !! i = m_pArrayLocation this !! i)
       /\ (forall a : N, is_Some (h !! a) -> h' !! a = h !! a)
       /\ (forall i : nat, m_iSize this <= Z.of_nat i < a_iNewSize ->
             exists c : N,
               cells' !! i = Some c
               /\ c <> nullptr
               /\ (c ∉ m_pArrayLocation this)
               /\ h !! c = None
               /\ h' !! c = Some v)
       /\ NoDup cells'.
Proof.
  intros Hwf [_ Hmax] Hgt.
  pose proof Hwf as [Hshape [Hnd Hall]].
  pose proof Hshape as (Hsize & Hcur & Hlen).
  split; [apply size_set_accepted; lia|].
  destruct (size_loops_grow this a_iNewSize h Hwf ltac:(lia))
    as (a_last & v & news & h' & Hlast & Hv & Hret & Hnlen & Hnnd & Hnall & Hrest).
  rewrite Forall_forall in Hall.
  assert (Hdisj : forall a, a ∈ m_pArrayLocation this -> a ∉ news).
  { intros a Ha Han. destruct (Hall a Ha) as [_ [w Hw]].
    destruct (proj1 (Forall_forall _ _) Hnall a Han) as (_ & Hnone & _).
    congruence. }
  eexists a_last, v, _, h'.
  split; [exact Hlast|]. split; [exact Hv|]. split; [exact Hret|].
  split; [rewrite length_app; lia|].
  split; [|split; [|split]].
  - intros i Hi. apply lookup_app_l. lia.
  - intros a [w Hw]. apply Hrest. intros Han.
    destruct (proj1 (Forall_forall _ _) Hnall a Han) as (_ & Hnone & _).
    congruence.
  - intros i Hi.
    destruct (lookup_lt_is_Some_2 news (i - length (m_pArrayLocation this)))
      as [c Hc]; [lia|].
    destruct (proj1 (Forall_lookup _ _) Hnall _ _ Hc) as (Hc0 & Hnone & Hval).
    exists c. rewrite lookup_app_r by lia.
    split; [exact Hc|]. split; [exact Hc0|]. split; [|split; assumption].
    intros Hin. destruct (Hall c Hin) as [_ [w Hw]]. congruence.
  - apply NoDup_app. split; [exact Hnd|]. split; [exact Hdisj|exact Hnnd].
Qed.

(** C7 (the code on a shrink). For [0 < a_iNewSize < m_iSize], the loops of
    [size(a_iNewSize)] build what the claim describes: the new array is the
    first [a_iNewSize] slots of the old one, their objects stay live and
    unchanged, and the objects of the slots from [a_iNewSize] on are
    deleted. The call then releases the old array, which came from
    [new type*[n]], with the single-object [delete]: its behaviour is
    undefined, and neither [m_iSize] nor [m_iNextFreePosition] is set. *)
Theorem size_shrink_truncates_then_misdeletes_array
    (this : Pool) (a_iNewSize : Z) (h : heap) :
  pool_wf this h ->
  0 < a_iNewSize < m_iSize this ->
  size_set this a_iNewSize h = Undefined
  /\ exists (cells' : list N) (h' : heap),
       size_loops this a_iNewSize h = Returns (cells', h')
       /\ cells' = take (Z.to_nat a_iNewSize) (m_pArrayLocation this)
       /\ (forall i : nat, Z.of_nat i < a_iNewSize ->
             cells' !! i = m_pArrayLocation this !! i)
       /\ (forall (i : nat) (a : N), a_iNewSize <= Z.of_nat i ->
             m_pArrayLocation this !! i = Some a -> h' !! a = None)
       /\ (forall a : N, a ∈ cells' -> h' !! a = h !! a).
Proof.
  intros Hwf Hnew. pose proof Hwf as [Hshape [Hnd Hall]].
  split; [apply size_set_accepted; lia|].
  destruct (size_loops_shrink this a_iNewSize h Hwf Hnew)
    as (h' & Hret & Hgone & Hkept).
  eexists _, h'. split; [exact Hret|]. split; [reflexivity|].
  split; [|split].
  - intros i Hi. apply lookup_take_lt. lia.
  - intros i a Hi Ha. apply Hgone. apply list_elem_of_lookup.
    exists (i - Z.to_nat a_iNewSize)%nat. rewrite lookup_drop.
    replace (Z.to_nat a_iNewSize + (i - Z.to_nat a_iNewSize))%nat with i by lia.
    exact Ha.
  - intros a Ha. apply Hkept. apply take_drop_disjoint; assumption.
Qed.

(** C8. For [a_iNewSize <= 0], [size(a_iNewSize)] returns [false], its
    report of an invalid argument, and changes nothing: [m_iSize],
    [m_iNextFreePosition], the array and the objects are as before the
    call. *)
Theorem size_nonpositive_returns_false_unchanged
    (this : Pool) (a_iNewSize : Z) (h : heap) :
  a_iNewSize <= 0 ->
  exists (r : bool) (this' : Pool) (h' : heap),
    size_set this a_iNewSize h = Returns (r, this', h')
    /\ spec_resize_result r = inl InvalidArgument
    /\ this' = this
    /\ h' = h.
Proof.
  intros Hle. exists false, this, h.
  split; [apply size_set_rejects; exact Hle|]. repeat split; reflexivity.
Qed.

(** C9. [activeAddresses] with a null [a_end] writes no [int] and returns
    the array of the pool; with a non-null [a_end] it returns the array of
    the pool as well, the [int] at [a_end] holds [m_iNextFreePosition] after
    the call, and no other [int] changes. *)
Theorem activeAddresses_tolerates_null_count
    (this : Pool) (ints : gmap N Z) :
  activeAddresses this None ints = (m_pArrayLocation this, ints)
  /\ forall l : N,
       fst (activeAddresses this (Some l) ints) = m_pArrayLocation this
       /\ snd (activeAddresses this (Some l) ints) !! l
          = Some (m_iNextFreePosition this)
       /\ forall l' : N, l' <> l ->
            snd (activeAddresses this (Some l) ints) !! l' = ints !! l'.
Proof.
  split; [reflexivity|]. intros l. unfold activeAddresses. simpl.
  split; [reflexivity|]. split; [apply lookup_insert_eq|].
  intros l' Hne. apply lookup_insert_ne. congruence.
Qed.

(** C10 (the code on a resize to the current capacity). The loops of
    [size(m_iSize)] copy every slot into the new array and touch no object.
    The call then releases the old array, which came from [new type*[n]],
    with the single-object [delete]: its behaviour is undefined and it does
    not return [true]. *)
Theorem size_to_current_capacity_misdeletes_array (this : Pool) (h : heap) :
  pool_wf this h ->
  size_set this (size this) h = Undefined
  /\ size_loops this (size this) h = Returns (m_pArrayLocation this, h).
Proof.
  intros Hwf. pose proof Hwf as [(Hsize & _) _]. unfold size.
  split; [apply size_set_accepted; lia|apply size_loops_same; exact Hwf].
Qed.

(** ** Further properties of the code *)

(** *** Construction and destruction *)

Lemma dtor_loop (cells : list N) (h : heap) :
  owned cells h ->
  exists h' : heap,
    Pool_dtor_loop (Z.of_nat (length cells)) cells h = Returns h'
    /\ (forall a, a ∈ cells -> h' !! a = None)
    /\ (forall a, a ∉ cells -> h' !! a = h !! a).
Proof.
  intros Hown.
  destruct (delete_loop cells h 0 (length cells) ltac:(lia) Hown)
    as (h' & Hret & Hgone & Hkept).
  rewrite drop_0, take_ge in Hgone, Hkept by lia.
  exists h'. split; [exact Hret|]. split; assumption.
Qed.

(** X1. [Pool()] is [Pool(10)], and [Pool(a_iSize)] with a positive size
    returns a pool of [a_iSize] slots, all free, whose objects are newly
    allocated (not live before), pairwise distinct, not null and
    default-constructed; the objects that were live keep their values. *)
Theorem sized_constructor_builds_all_free_pool (a_iSize : Z) (h : heap) :
  0 < a_iSize <= INT_MAX ->
  Pool_default h = Pool_sized 10 h
  /\ exists (this : Pool) (h' : heap),
       Pool_sized a_iSize h = Returns (Some this, h')
       /\ size this = a_iSize
       /\ activeCount this = 0
       /\ Z.of_nat (length (m_pArrayLocation this)) = a_iSize
       /\ NoDup (m_pArrayLocation this)
       /\ Forall (fun a => a <> nullptr /\ h !! a = None
                           /\ h' !! a = Some type_default)
            (m_pArrayLocation this)
       /\ (forall a : N, is_Some (h !! a) -> h' !! a = h !! a).
Proof.
  intros Hsize. split; [reflexivity|].
  destruct (Pool_sized_spec a_iSize h Hsize)
    as (cells & h' & Hret & [Hshape [Hnd Hall]] & Hnew & Hrest).
  eexists _, h'. split; [exact Hret|]. simpl.
  split; [reflexivity|]. split; [reflexivity|].
  split; [apply Hshape|]. split; [exact Hnd|]. split.
  - apply Forall_forall. intros a Ha.
    destruct (proj1 (Forall_forall _ _) Hall a Ha) as [Ha0 _].
    destruct (proj1 (Forall_forall _ _) Hnew a Ha) as [Hnone Hval].
    split; [exact Ha0|]. split; assumption.
  - intros a [w Hw]. apply Hrest. intros Hin.
    destruct (proj1 (Forall_forall _ _) Hnew a Hin) as [Hnone _]. congruence.
Qed.

(** X2. [Pool(a_pObjectToPool, a_iSize)] with a positive size and a live
    template returns a pool of [a_iSize] slots, all free, whose objects are
    newly allocated, pairwise distinct, not null, and hold the value of the
    template. The template is none of them and keeps its value, as does
    every object that was live. *)
Theorem cloning_constructor_builds_independent_copies
    (a_pObjectToPool : N) (v : type) (a_iSize : Z) (h : heap) :
  0 < a_iSize <= INT_MAX ->
  h !! a_pObjectToPool = Some v ->
  exists (this : Pool) (h' : heap),
    Pool_cloned a_pObjectToPool a_iSize h = Returns (Some this, h')
    /\ size this = a_iSize
    /\ activeCount this = 0
    /\ Z.of_nat (length (m_pArrayLocation this)) = a_iSize
    /\ NoDup (m_pArrayLocation this)
    /\ Forall (fun a => a <> nullptr /\ h !! a = None /\ h' !! a = Some v)
         (m_pArrayLocation this)
    /\ (a_pObjectToPool ∉ m_pArrayLocation this)
    /\ (forall a : N, is_Some (h !! a) -> h' !! a = h !! a).
Proof.
  intros Hsize Hsrc.
  destruct (Pool_cloned_spec a_pObjectToPool v a_iSize h Hsize Hsrc)
    as (cells & h' & Hret & [Hshape [Hnd Hall]] & Hnew & Hrest).
  assert (Hold : forall a w, h !! a = Some w -> a ∉ cells).
  { intros a w Hw Hin.
    destruct (proj1 (Forall_forall _ _) Hnew a Hin) as [Hnone _]. congruence. }
  eexists _, h'. split; [exact Hret|]. simpl.
  split; [reflexivity|]. split; [reflexivity|].
  split; [apply Hshape|]. split; [exact Hnd|]. split; [|split].
  - apply Forall_forall. intros a Ha.
    destruct (proj1 (Forall_forall _ _) Hall a Ha) as [Ha0 _].
    destruct (proj1 (Forall_forall _ _) Hnew a Ha) as [Hnone Hval].
    split; [exact Ha0|]. split; assumption.
  - exact (Hold _ _ Hsrc).
  - intros a [w Hw]. apply Hrest. exact (Hold _ _ Hw).
Qed.

(** X3. [Pool(nullptr, a_iSize)] with a positive size dereferences the null
    template in the first iteration of its loop: the behaviour is
    undefined. *)
Theorem cloning_constructor_null_template_undefined (a_iSize : Z) (h : heap) :
  0 < a_iSize ->
  h !! nullptr = None ->
  Pool_cloned nullptr a_iSize h = Undefined.
Proof.
  intros Hpos Hnull. unfold Pool_cloned.
  destruct (Z.ltb_spec 0 a_iSize) as [_|]; [|lia].
  unfold for_loop.
  destruct (Z.to_nat (a_iSize - 0)) as [|n] eqn:Hn; [lia|].
  cbn [for_loop_from]. unfold fill_clone_body at 1. cbn [fst snd].
  destruct (new_object_fresh h) as [_ Hne].
  rewrite (new_object_eq h). cbn [fst snd].
  unfold load. rewrite lookup_insert_ne by congruence.
  rewrite Hnull. reflexivity.
Qed.

(** X4. The loop of the destructor of a well-formed pool returns, having
    deleted the object of every slot (active or free) and no other object.
    The destructor then releases the array, which came from
    [new type*[n]], with the single-object [delete]: every run of the
    destructor on a well-formed pool ends in undefined behaviour. *)
Theorem destructor_deletes_objects_then_misdeletes_array
    (this : Pool) (h : heap) :
  pool_wf this h ->
  (exists h' : heap,
     Pool_dtor_loop (m_iSize this) (m_pArrayLocation this) h = Returns h'
     /\ (forall a : N, a ∈ m_pArrayLocation this -> h' !! a = None)
     /\ (forall a : N, a ∉ m_pArrayLocation this -> h' !! a = h !! a))
  /\ Pool_dtor (m_iSize this) (Assigned (m_pArrayLocation this)) h = Undefined.
Proof.
  intros [(_ & _ & Hlen) Hown].
  destruct (dtor_loop _ _ Hown) as (h' & Hret & Hgone & Hkept).
  rewrite Hlen in Hret. split.
  - exists h'. split; [exact Hret|]. split; assumption.
  - unfold Pool_dtor. rewrite Hret. reflexivity.
Qed.

(** *** Retrieval and release together *)

Lemma getNext_times_general (n : nat) :
  forall this : Pool,
  pool_shape this ->
  getNext_times n this
  = Returns
      (take n (drop (Z.to_nat (m_iNextFreePosition this)) (m_pArrayLocation this))
         ++ replicate (n - Z.to_nat (m_iSize this - m_iNextFreePosition this)) nullptr,
       mkPool (m_iSize this)
         (Z.min (m_iNextFreePosition this + Z.of_nat n) (m_iSize this))
         (m_pArrayLocation this)).
Proof.
  induction n as [|n IH]; intros this Hshape.
  - simpl. rewrite Z.add_0_r, Z.min_l by (destruct Hshape as (_ & ? & _); lia).
    destruct this; reflexivity.
  - pose proof Hshape as (Hsize & Hcur & Hlen).
    cbn [getNext_times].
    destruct (Z.lt_ge_cases (m_iNextFreePosition this) (m_iSize this)) as [Hlt|Hge].
    + destruct (getNext_free this Hshape Hlt) as (a & Ha & Hret).
      rewrite Hret. cbn [bind fst snd].
      rewrite IH by (unfold pool_shape; simpl; lia).
      cbn [bind fst snd m_iSize m_iNextFreePosition m_pArrayLocation].
      f_equal. f_equal.
      * rewrite (drop_S _ _ _ Ha). cbn [take].
        replace (Z.to_nat (m_iNextFreePosition this + 1))
          with (S (Z.to_nat (m_iNextFreePosition this))) by lia.
        replace (S n - Z.to_nat (m_iSize this - m_iNextFreePosition this))%nat
          with (n - Z.to_nat (m_iSize this - (m_iNextFreePosition this + 1)))%nat
          by lia.
        reflexivity.
      * f_equal. lia.
    + rewrite (getNext_exhausted this Hge). cbn [bind fst snd].
      rewrite IH by exact Hshape. cbn [bind fst snd].
      f_equal. f_equal.
      * rewrite drop_ge by lia. rewrite !take_nil. cbn [app].
        replace (Z.to_nat (m_iSize this - m_iNextFreePosition this)) with O by lia.
        rewrite !Nat.sub_0_r. reflexivity.
      * f_equal. lia.
Qed.

(** X6. On a well-formed pool with a free slot, [getNext] hands out a live,
    non-null object that was free and not active, leaves the array as it
    is, and the active region after the call is the active region before it
    followed by the returned address. *)
Theorem getNext_hands_out_a_free_object (this : Pool) (h : heap) :
  pool_wf this h ->
  m_iNextFreePosition this < m_iSize this ->
  let cursor := Z.to_nat (m_iNextFreePosition this) in
  exists (a : N) (this' : Pool),
    getNext this = Returns (a, this')
    /\ a <> nullptr
    /\ is_Some (h !! a)
    /\ (a ∉ take cursor (m_pArrayLocation this))
    /\ (a ∈ drop cursor (m_pArrayLocation this))
    /\ m_pArrayLocation this' = m_pArrayLocation this
    /\ take (Z.to_nat (m_iNextFreePosition this')) (m_pArrayLocation this')
       = take cursor (m_pArrayLocation this) ++ [a].
Proof.
  intros [Hshape [Hnd Hall]] Hlt cursor.
  pose proof Hshape as (Hsize & Hcur & Hlen).
  destruct (getNext_free this Hshape Hlt) as (a & Ha & Hret). fold cursor in Ha.
  destruct (proj1 (Forall_lookup _ _) Hall _ _ Ha) as [Ha0 Hlive].
  eexists a, _. split; [exact Hret|]. simpl.
  split; [exact Ha0|]. split; [exact Hlive|]. split; [|split; [|split]].
  - intros Hin. apply elem_of_take in Hin as (j & Hj & Hjlt).
    pose proof (NoDup_lookup _ _ _ _ Hnd Hj Ha). lia.
  - rewrite (drop_S _ _ _ Ha). apply list_elem_of_here.
  - reflexivity.
  - replace (Z.to_nat (m_iNextFreePosition this + 1)) with (S cursor)
      by (unfold cursor; lia).
    apply take_S_r. exact Ha.
Qed.

(** X7. Any number [n] of [getNext] calls in a row on a well-formed pool:
    the first calls return the free slots in order, which are pairwise
    distinct and not null, every call after the pool is exhausted returns
    [nullptr], [activeCount()] ends at the smaller of [activeCount() + n]
    and [size()], and the array is as before. *)
Theorem getNext_repeated_saturates (n : nat) (this : Pool) (h : heap) :
  pool_wf this h ->
  let free := drop (Z.to_nat (m_iNextFreePosition this)) (m_pArrayLocation this) in
  exists this' : Pool,
    getNext_times n this
    = Returns (take n free ++ replicate (n - length free) nullptr, this')
    /\ NoDup (take n free)
    /\ Forall (fun a => a <> nullptr) (take n free)
    /\ activeCount this' = Z.min (activeCount this + Z.of_nat n) (size this)
    /\ size this' = size this
    /\ m_pArrayLocation this' = m_pArrayLocation this.
Proof.
  intros [Hshape [Hnd Hall]] free.
  pose proof Hshape as (Hsize & Hcur & Hlen).
  eexists. split.
  - rewrite (getNext_times_general n this Hshape). fold free.
    replace (Z.to_nat (m_iSize this - m_iNextFreePosition this))
      with (length free) by (unfold free; rewrite length_drop; lia).
    reflexivity.
  - simpl. split; [|split; [|repeat split]].
    + eapply sublist_NoDup; [exact Hnd|].
      etransitivity; [apply sublist_take|apply sublist_drop].
    + apply Forall_forall. intros a Ha.
      rewrite Forall_forall in Hall. apply Hall.
      apply (subseteq_drop (Z.to_nat (m_iNextFreePosition this))).
      apply (subseteq_take n). exact Ha.
Qed.

(** X8. Retrieval followed by the release of the object just retrieved is
    the identity on a well-formed pool with a free slot: the fields of the
    pool, the order of the slots included, are as before the two calls. *)
Theorem getNext_then_release_is_identity (this : Pool) (h : heap) :
  pool_wf this h ->
  m_iNextFreePosition this < m_iSize this ->
  exists (a : N) (this1 : Pool),
    getNext this = Returns (a, this1)
    /\ activeCount this1 = activeCount this + 1
    /\ release this1 a = Returns this.
Proof.
  intros [Hshape [Hnd _]] Hlt. pose proof Hshape as (Hsize & Hcur & Hlen).
  destruct (getNext_free this Hshape Hlt) as (a & Ha & Hret).
  eexists a, _. split; [exact Hret|]. split; [reflexivity|].
  set (this1 := mkPool (m_iSize this) (m_iNextFreePosition this + 1)
                  (m_pArrayLocation this)).
  assert (Hshape1 : pool_shape this1) by (unfold pool_shape; simpl; lia).
  destruct (release_accepts this1 a (Z.to_nat (m_iNextFreePosition this)) Hshape1)
    as (b & Hb & Hrel).
  - apply first_at_NoDup; assumption.
  - simpl. lia.
  - simpl in Hb, Hrel.
    replace (m_iNextFreePosition this + 1 - 1) with (m_iNextFreePosition this)
      in Hb, Hrel by lia.
    rewrite Ha in Hb. injection Hb as <-.
    rewrite Hrel. rewrite (list_insert_id _ _ _ Ha), (list_insert_id _ _ _ Ha).
    destruct this; reflexivity.
Qed.

(** X9. The object released last is the one handed out next: after
    [release] accepts an address, [getNext] returns that same address, and
    [activeCount()] is back to its value before the release. *)
Theorem release_then_getNext_returns_same (this : Pool) (a : N) (k : nat) :
  pool_shape this ->
  first_at (m_pArrayLocation this) a k ->
  Z.of_nat k < m_iNextFreePosition this ->
  exists this1 this2 : Pool,
    release this a = Returns this1
    /\ activeCount this1 = activeCount this - 1
    /\ getNext this1 = Returns (a, this2)
    /\ activeCount this2 = activeCount this.
Proof.
  intros Hshape Hfirst Hk. pose proof Hshape as (Hsize & Hcur & Hlen).
  destruct (release_accepts this a k Hshape Hfirst Hk) as (b & Hb & Hret).
  pose proof (first_at_lt _ _ _ Hfirst) as Hklt.
  pose proof (lookup_lt_Some _ _ _ Hb) as Hllt.
  set (last := Z.to_nat (m_iNextFreePosition this - 1)) in *.
  set (this1 := mkPool (m_iSize this) (m_iNextFreePosition this - 1)
                  (<[k := b]> (<[last := a]> (m_pArrayLocation this)))) in *.
  assert (Hshape1 : pool_shape this1).
  { unfold pool_shape. simpl. rewrite !length_insert. lia. }
  destruct (getNext_free this1 Hshape1) as (a' & Ha' & Hnext); [simpl; lia|].
  simpl in Ha'. fold last in Ha'.
  rewrite swap_lookup in Ha' by assumption.
  assert (a' = a) as ->.
  { destruct (decide (last = k)) as [Heq|_].
    - destruct Hfirst as [Hka _]. rewrite Heq in Hb. congruence.
    - destruct (decide (last = last)); congruence. }
  eexists this1, _. split; [exact Hret|]. split; [reflexivity|].
  split; [exact Hnext|]. unfold activeCount. simpl. lia.
Qed.

(** Exchanging the slot [k] with a slot [last] at or after it, seen from the
    boundary [last]: what lies below the boundary loses the content of [k],
    which becomes the first slot from the boundary on. *)
Lemma swap_partition (cells : list N) (k last : nat) (a b : N) :
  NoDup cells ->
  cells !! k = Some a -> cells !! last = Some b -> (k <= last)%nat ->
  let cells' := <[k := b]> (<[last := a]> cells) in
  (forall x, x ∈ take last cells' <-> x ∈ take (S last) cells /\ x <> a)
  /\ drop last cells' = a :: drop (S last) cells
  /\ cells' ≡ₚ cells.
Proof.
  intros Hnd Hk Hl Hle cells'.
  pose proof (lookup_lt_Some _ _ _ Hk) as Hklt.
  pose proof (lookup_lt_Some _ _ _ Hl) as Hllt.
  assert (Hlook : forall j, cells' !! j
            = if decide (j = k) then Some b
              else if decide (j = last) then Some a else cells !! j).
  { intros j. unfold cells'. apply swap_lookup; assumption. }
  assert (Hlast : cells' !! last = Some a).
  { rewrite Hlook. destruct (decide (last = k)) as [Heq|_].
    - rewrite Heq in Hl. congruence.
    - destruct (decide (last = last)); congruence. }
  split; [|split].
  - intros x. rewrite !elem_of_take. split.
    + intros (j & Hj & Hjlt). rewrite Hlook in Hj.
      destruct (decide (j = k)) as [->|Hjk].
      * injection Hj as <-. split; [exists last; split; [exact Hl|lia]|].
        intros ->. pose proof (NoDup_lookup _ _ _ _ Hnd Hk Hl). lia.
      * destruct (decide (j = last)); [lia|].
        split; [exists j; split; [exact Hj|lia]|].
        intros ->. pose proof (NoDup_lookup _ _ _ _ Hnd Hk Hj). lia.
    + intros [(i & Hi & Hilt) Hxa].
      assert (Hik : i <> k) by (intros ->; congruence).
      destruct (decide (i = last)) as [->|Hil].
      * exists k. split; [|lia]. rewrite Hlook.
        destruct (decide (k = k)); congruence.
      * exists i. split; [|lia]. rewrite Hlook.
        destruct (decide (i = k)); [congruence|].
        destruct (decide (i = last)); [congruence|exact Hi].
  - rewrite (drop_S _ _ _ Hlast). f_equal. unfold cells'.
    rewrite !drop_insert_lt by lia. reflexivity.
  - apply NoDup_Permutation; [exact (swap_NoDup _ _ _ _ _ Hk Hl Hnd)|exact Hnd|].
    intros x. rewrite !list_elem_of_lookup. split.
    + intros [j Hj]. destruct (swap_source _ _ _ _ _ _ _ Hk Hl Hj) as (j' & Hj' & _).
      eauto.
    + intros [i Hi]. destruct (decide (i = k)) as [->|Hik].
      * exists last. rewrite Hlast. congruence.
      * destruct (decide (i = last)) as [->|Hil].
        -- exists k. rewrite Hlook. destruct (decide (k = k)); congruence.
        -- exists i. rewrite Hlook.
           destruct (decide (i = k)); [congruence|].
           destruct (decide (i = last)); [congruence|exact Hi].
Qed.

Lemma release_partition (this : Pool) (a : N) :
  pool_shape this -> NoDup (m_pArrayLocation this) ->
  a ∈ take (Z.to_nat (m_iNextFreePosition this)) (m_pArrayLocation this) ->
  exists this' : Pool,
    release this a = Returns this'
    /\ pool_shape this'
    /\ NoDup (m_pArrayLocation this')
    /\ m_iSize this' = m_iSize this
    /\ m_iNextFreePosition this' = m_iNextFreePosition this - 1
    /\ (forall x,
          x ∈ take (Z.to_nat (m_iNextFreePosition this')) (m_pArrayLocation this')
          <-> x ∈ take (Z.to_nat (m_iNextFreePosition this)) (m_pArrayLocation this)
              /\ x <> a)
    /\ drop (Z.to_nat (m_iNextFreePosition this')) (m_pArrayLocation this')
       = a :: drop (Z.to_nat (m_iNextFreePosition this)) (m_pArrayLocation this)
    /\ m_pArrayLocation this' ≡ₚ m_pArrayLocation this.
Proof.
  intros Hshape Hnd Hin. pose proof Hshape as (Hsize & Hcur & Hlen).
  apply elem_of_take in Hin as (k & Hk & Hklt).
  destruct (release_accepts this a k Hshape (first_at_NoDup _ _ _ Hnd Hk))
    as (b & Hb & Hret); [lia|].
  set (last := Z.to_nat (m_iNextFreePosition this - 1)) in *.
  destruct (swap_partition _ k last a b Hnd Hk Hb ltac:(lia))
    as (Hactive & Hfree & Hperm).
  replace (Z.to_nat (m_iNextFreePosition this)) with (S last) by lia.
  eexists. split; [exact Hret|]. simpl. fold last.
  split; [unfold pool_shape; simpl; rewrite !length_insert; lia|].
  split; [exact (swap_NoDup _ _ _ _ _ Hk Hb Hnd)|].
  split; [reflexivity|]. split; [reflexivity|].
  split; [exact Hactive|]. split; [exact Hfree|exact Hperm].
Qed.

(** X10. When [release] accepts an address (the slots being pairwise
    distinct), the array after the call is a permutation of the array
    before it, the active region is the former one without the released
    address, and the free region is the released address followed by the
    former free region. *)
Theorem release_moves_object_to_free_region (this : Pool) (a : N) :
  pool_shape this ->
  NoDup (m_pArrayLocation this) ->
  a ∈ take (Z.to_nat (activeCount this)) (m_pArrayLocation this) ->
  exists this' : Pool,
    release this a = Returns this'
    /\ size this' = size this
    /\ activeCount this' = activeCount this - 1
    /\ m_pArrayLocation this' ≡ₚ m_pArrayLocation this
    /\ (forall x : N,
          x ∈ take (Z.to_nat (activeCount this')) (m_pArrayLocation this')
          <-> x ∈ take (Z.to_nat (activeCount this)) (m_pArrayLocation this)
              /\ x <> a)
    /\ drop (Z.to_nat (activeCount this')) (m_pArrayLocation this')
       = a :: drop (Z.to_nat (activeCount this)) (m_pArrayLocation this).
Proof.
  intros Hshape Hnd Hin.
  destruct (release_partition this a Hshape Hnd Hin)
    as (this' & Hret & _ & _ & Hsize & Hcur & Hactive & Hfree & Hperm).
  exists this'. unfold activeCount, size.
  split; [exact Hret|]. split; [exact Hsize|]. split; [exact Hcur|].
  split; [exact Hperm|]. split; [exact Hactive|exact Hfree].
Qed.

Lemma release_all_spec (handles : list N) :
  forall this : Pool,
  pool_shape this -> NoDup (m_pArrayLocation this) ->
  NoDup handles ->
  (forall a, a ∈ handles ->
     a ∈ take (Z.to_nat (m_iNextFreePosition this)) (m_pArrayLocation this)) ->
  exists this' : Pool,
    release_all handles this = Returns this'
    /\ m_iSize this' = m_iSize this
    /\ m_iNextFreePosition this'
       = m_iNextFreePosition this - Z.of_nat (length handles)
    /\ m_pArrayLocation this' ≡ₚ m_pArrayLocation this
    /\ (forall x,
          x ∈ take (Z.to_nat (m_iNextFreePosition this')) (m_pArrayLocation this')
          <-> x ∈ take (Z.to_nat (m_iNextFreePosition this)) (m_pArrayLocation this)
              /\ x ∉ handles).
Proof.
  induction handles as [|a rest IH]; intros this Hshape Hnd Hhnd Hactive.
  - exists this. simpl. split; [reflexivity|]. split; [reflexivity|].
    split; [lia|]. split; [reflexivity|].
    intros x. split; [intros Hx; split; [exact Hx|inversion 1]|tauto].
  - apply NoDup_cons in Hhnd as [Harest Hrnd].
    destruct (release_partition this a Hshape Hnd)
      as (this1 & Hret & Hshape1 & Hnd1 & Hsize1 & Hcur1 & Hact1 & _ & Hperm1).
    { apply Hactive. apply list_elem_of_here. }
    destruct (IH this1 Hshape1 Hnd1 Hrnd)
      as (this' & Hall & Hsize' & Hcur' & Hperm' & Hact').
    { intros x Hx. apply Hact1. split.
      - apply Hactive. apply list_elem_of_further. exact Hx.
      - intros ->. exact (Harest Hx). }
    exists this'. cbn [release_all]. rewrite Hret. cbn [bind].
    split; [exact Hall|]. split; [congruence|].
    split; [rewrite Hcur', Hcur1; simpl; lia|].
    split; [etransitivity; eassumption|].
    intros x. rewrite Hact', Hact1, not_elem_of_cons. tauto.
Qed.

(** X11. Giving back pairwise distinct active objects one after the other,
    in any order, succeeds for each of them: [activeCount()] drops by their
    number, the active region is the former one without them, and the array
    is a permutation of the former one, on a pool whose slots are pairwise
    distinct. *)
Theorem release_all_in_any_order (handles : list N) (this : Pool) :
  pool_shape this ->
  NoDup (m_pArrayLocation this) ->
  NoDup handles ->
  Forall (fun a => a ∈ take (Z.to_nat (activeCount this)) (m_pArrayLocation this))
    handles ->
  exists this' : Pool,
    release_all handles this = Returns this'
    /\ size this' = size this
    /\ activeCount this' = activeCount this - Z.of_nat (length handles)
    /\ m_pArrayLocation this' ≡ₚ m_pArrayLocation this
    /\ (forall x : N,
          x ∈ take (Z.to_nat (activeCount this')) (m_pArrayLocation this')
          <-> x ∈ take (Z.to_nat (activeCount this)) (m_pArrayLocation this)
              /\ x ∉ handles).
Proof.
  intros Hshape Hnd Hhnd Hactive. rewrite Forall_forall in Hactive.
  exact (release_all_spec handles this Hshape Hnd Hhnd Hactive).
Qed.

(** X12. [release] of the null pointer, or of an address at which no object
    is live (a stale handle), changes nothing on a well-formed pool. *)
Theorem release_of_dead_address_changes_nothing
    (this : Pool) (h : heap) (a : N) :
  pool_wf this h ->
  a = nullptr \/ h !! a = None ->
  release this a = Returns this.
Proof.
  intros [Hshape [_ Hall]] Hdead.
  apply release_rejects; [apply Hshape|].
  intros j _ Hj.
  destruct (proj1 (Forall_lookup _ _) Hall _ _ Hj) as [Hne [w Hw]].
  destruct Hdead as [->|Hnone]; congruence.
Qed.

(** *** Sequences of calls *)

(** X13. On a pool left by any of the constructors, after every call of a
    sequence of [getNext], [release] and rejected [size(int)] calls the
    array has [m_iSize] slots and the slots hold pairwise distinct, non-null
    addresses of live objects: the pool never holds an object twice, never
    holds a null pointer and never holds a deleted object. *)
Theorem slots_stay_owned_after_every_call
    (this : Pool) (h : heap) (ops : list op) :
  constructed this h ->
  Forall (fun o => ~ accepts_resize o) ops ->
  exists trace : list (Pool * heap),
    run ops (this, h) = Returns trace
    /\ Forall (fun s =>
                 Z.of_nat (length (m_pArrayLocation (fst s))) = size (fst s)
                 /\ 0 < size (fst s)
                 /\ NoDup (m_pArrayLocation (fst s))
                 /\ Forall (fun a => a <> nullptr /\ is_Some (snd s !! a))
                      (m_pArrayLocation (fst s)))
         ((this, h) :: trace).
Proof.
  intros Hctor Hargs.
  pose proof (constructed_wf this h Hctor) as Hwf.
  destruct (run_wf ops this h Hwf Hargs) as (trace & Hrun & _ & Hall & _).
  exists trace. split; [exact Hrun|].
  assert (Hown : forall s : Pool * heap, pool_wf (fst s) (snd s) ->
            Z.of_nat (length (m_pArrayLocation (fst s))) = size (fst s)
            /\ 0 < size (fst s)
            /\ NoDup (m_pArrayLocation (fst s))
            /\ Forall (fun a => a <> nullptr /\ is_Some (snd s !! a))
                 (m_pArrayLocation (fst s))).
  { intros s [(Hsize & _ & Hlen) [Hnd Hlive]]. unfold size.
    split; [exact Hlen|]. split; [lia|]. split; assumption. }
  constructor.
  - exact (Hown (this, h) Hwf).
  - eapply Forall_impl; [exact Hall|exact Hown].
Qed.

(** X14. On a pool left by any of the constructors, after every call of a
    sequence of [getNext], [release] and rejected [size(int)] calls,
    [freeCount()] returns without overflow, is not negative, and
    [activeCount() + freeCount() == size()]. *)
Theorem counts_add_up_after_every_call
    (this : Pool) (h : heap) (ops : list op) :
  constructed this h ->
  Forall (fun o => ~ accepts_resize o) ops ->
  exists trace : list (Pool * heap),
    run ops (this, h) = Returns trace
    /\ Forall (fun s =>
                 exists free : Z,
                   freeCount (fst s) = Returns free
                   /\ 0 <= free
                   /\ activeCount (fst s) + free = size (fst s))
         ((this, h) :: trace).
Proof.
  intros Hctor Hargs.
  pose proof (constructed_wf this h Hctor) as Hwf.
  destruct (run_wf ops this h Hwf Hargs) as (trace & Hrun & _ & Hall & _).
  exists trace. split; [exact Hrun|].
  assert (Hcount : forall s : Pool * heap, pool_wf (fst s) (snd s) ->
            exists free : Z,
              freeCount (fst s) = Returns free
              /\ 0 <= free
              /\ activeCount (fst s) + free = size (fst s)).
  { intros s [(Hsize & Hcur & _) _].
    exists (m_iSize (fst s) - m_iNextFreePosition (fst s)).
    unfold freeCount, int_sub, activeCount, size.
    rewrite int_of_Returns by (unfold is_int, INT_MIN, INT_MAX in *; lia).
    split; [reflexivity|]. lia. }
  constructor.
  - exact (Hcount (this, h) Hwf).
  - eapply Forall_impl; [exact Hall|exact Hcount].
Qed.

(** X18. The idiom of the header comment: after [n] retrievals on a pool
    with no active object and at least [n] slots, [activeAddresses] writes
    [n] through [a_end] and the first [n] entries of the array it returns
    are the addresses that the retrievals returned, in order. *)
Theorem activeAddresses_lists_what_was_retrieved
    (n : nat) (this : Pool) (l : N) (ints : gmap N Z) :
  pool_shape this ->
  m_iNextFreePosition this = 0 ->
  Z.of_nat n <= m_iSize this ->
  exists (handles : list N) (this' : Pool),
    getNext_times n this = Returns (handles, this')
    /\ snd (activeAddresses this' (Some l) ints) !! l = Some (Z.of_nat n)
    /\ take n (fst (activeAddresses this' (Some l) ints)) = handles.
Proof.
  intros Hshape Hzero Hn.
  eexists _, _. split; [apply getNext_times_spec; [exact Hshape|lia]|].
  unfold activeAddresses. simpl. rewrite Hzero. simpl.
  split; [apply lookup_insert_eq|]. rewrite drop_0. reflexivity.
Qed.

End PoolOf.

(** ** Concrete runs *)

Lemma partition_invariant_until_accepted_resize_witness :
  let ops :=
    [OpGetNext; OpGetNext; OpRelease 1%N; OpSize 0; OpGetNext; OpRelease 9%N;
     OpGetNext; OpGetNext; OpSize (-4); OpRelease 2%N; OpRelease 2%N] in
  (exists trace : list (Pool * gmap N nat),
     run 7%nat ops (sample_pool 3 0, sample_heap 3) = Returns trace
     /\ length trace = length ops
     /\ Forall (fun s => partition_invariant (fst s))
          ((sample_pool 3 0, sample_heap 3) :: trace)
     /\ boundary_moves ops (sample_pool 3 0) trace)
  /\ run 7%nat [OpGetNext; OpSize 5; OpGetNext] (sample_pool 3 0, sample_heap 3)
     = Undefined.
Proof.
  intros ops.
  assert (Hctor : constructed 7%nat (sample_pool 3 0) (sample_heap 3)).
  { right. left. exists 3, ∅. split; [compute_done|]. vm_compute. reflexivity. }
  split.
  - apply (partition_invariant_until_accepted_resize 7%nat _ _ ops Hctor).
    compute_done.
  - apply (partition_invariant_until_accepted_resize 7%nat _ _
             [OpGetNext; OpSize 5; OpGetNext] Hctor).
    compute_done.
Defined.

Lemma release_swaps_with_last_active_witness :
  exists this' : Pool,
    release (sample_pool 4 3) 1%N = Returns this'
    /\ m_pArrayLocation this' !! 2%nat = Some 1%N
    /\ m_pArrayLocation this' !! 0%nat = Some 3%N
    /\ m_pArrayLocation this' !! 1%nat = Some 2%N
    /\ m_pArrayLocation this' !! 3%nat = Some 4%N
    /\ m_iNextFreePosition this' = 2
    /\ m_iSize this' = 4.
Proof.
  destruct (release_swaps_with_last_active (sample_pool 4 3) 1%N 0)
    as (b & this' & Hb & Hret & Hlast & Hk & Hcur & Hsize & _ & Hother);
    [compute_done | compute_done | reflexivity |].
  vm_compute in Hb. injection Hb as <-.
  exists this'. split; [exact Hret|]. split; [exact Hlast|]. split; [exact Hk|].
  split; [rewrite (Hother 1%nat) by (vm_compute; lia); reflexivity|].
  split; [rewrite (Hother 3%nat) by (vm_compute; lia); reflexivity|].
  split; [exact Hcur|exact Hsize].
Defined.

Lemma getNext_hands_out_or_is_exhausted_witness :
  getNext_times 3 (sample_pool 3 0) = Returns ([1; 2; 3]%N, sample_pool 3 3)
  /\ (exists r : N,
        getNext (sample_pool 3 3) = Returns (r, sample_pool 3 3)
        /\ spec_retrieve_result r = inl PoolExhausted)
  /\ activeCount (sample_pool 3 3) = 3.
Proof.
  destruct (getNext_hands_out_or_is_exhausted (sample_pool 3 0) (sample_heap 3))
    as (_ & _ & Hall); [compute_done|].
  destruct (Hall eq_refl) as (Htimes & _ & Hnext & Hcount).
  split; [exact Htimes|]. split; [exact Hnext|exact Hcount].
Defined.

(** C4 as the specification states it does not hold. A release that the
    pool rejects (address 3 sits at slot 2, which is not below
    [m_iNextFreePosition = 2]) returns normally and hands its caller exactly
    what an accepted release (address 1, at slot 0) hands it: whatever way
    the caller reads the result, it reads the same for both, so the rejected
    release is not reported as [InvalidRelease] or as any failure. *)
Lemma release_rejection_is_not_reported :
  release (sample_pool 3 2) 3%N = Returns (sample_pool 3 2)
  /\ release (sample_pool 3 2) 1%N = Returns (mkPool 3 1 [2; 1; 3]%N)
  /\ forall decode : outcome unit -> PoolError + unit,
       decode (release_result (sample_pool 3 2) 3%N)
       = decode (release_result (sample_pool 3 2) 1%N).
Proof. split; [|split]; [vm_compute; reflexivity ..|]. intros decode. reflexivity. Qed.

Lemma release_of_inactive_is_silent_noop_witness :
  (release (sample_pool 3 2) 3%N = Returns (sample_pool 3 2)
   /\ release_result (sample_pool 3 2) 3%N = Returns tt)
  /\ (release (sample_pool 3 2) 9%N = Returns (sample_pool 3 2)
      /\ release_result (sample_pool 3 2) 9%N = Returns tt)
  /\ exists this1 : Pool,
       release (sample_pool 3 2) 1%N = Returns this1
       /\ release this1 1%N = Returns this1
       /\ release_result this1 1%N = Returns tt.
Proof.
  split; [|split].
  - destruct (release_of_inactive_is_silent_noop (sample_pool 3 2) 3%N)
      as (Hcase & _); [compute_done|].
    apply Hcase. right. exists 2%nat. split; [compute_done|reflexivity].
  - destruct (release_of_inactive_is_silent_noop (sample_pool 3 2) 9%N)
      as (Hcase & _); [compute_done|].
    apply Hcase. left. compute_done.
  - destruct (release_of_inactive_is_silent_noop (sample_pool 3 2) 1%N)
      as (_ & _ & Htwice); [compute_done|].
    apply Htwice. compute_done.
Defined.

Lemma constructor_nonpositive_size_deletes_this_witness :
  Pool_sized 7%nat 0 (sample_heap 1) = Undefined
  /\ Pool_cloned 7%nat 1%N 0 (sample_heap 1) = Undefined
  /\ Pool_dtor 10 Unassigned (sample_heap 1) = Undefined.
Proof.
  apply (constructor_nonpositive_size_deletes_this 7%nat 1%N 0 (sample_heap 1)).
  lia.
Defined.

Lemma size_growth_clones_then_misdeletes_array_witness :
  let h := <[5%N := 42%nat]> (sample_heap 5) in
  size_set 7%nat (sample_pool 5 3) 8 h = Undefined
  /\ exists (cells' : list N) (h' : gmap N nat),
       size_loops 7%nat (sample_pool 5 3) 8 h = Returns (cells', h')
       /\ (forall i : nat, Z.of_nat i < 5 -> cells' !! i = sample_cells 5 !! i)
       /\ (forall i : nat, 5 <= Z.of_nat i < 8 ->
             exists c : N,
               cells' !! i = Some c
               /\ (c ∉ sample_cells 5)
               /\ h' !! c = Some 42%nat).
Proof.
  intros h.
  destruct (size_growth_clones_then_misdeletes_array 7%nat (sample_pool 5 3) 8 h)
    as (Hundef & a_last & v & cells' & h' & Hlast & Hv & Hret & _
        & Hkept & _ & Hnew & _);
    [compute_done | compute_done | reflexivity |].
  vm_compute in Hlast. injection Hlast as <-.
  vm_compute in Hv. injection Hv as <-.
  split; [exact Hundef|].
  exists cells', h'. split; [exact Hret|]. split; [exact Hkept|].
  intros i Hi. destruct (Hnew i Hi) as (c & Hc & _ & Hnin & _ & Hval).
  exists c. split; [exact Hc|]. split; [exact Hnin|exact Hval].
Defined.

Lemma size_shrink_truncates_then_misdeletes_array_witness :
  size_set 7%nat (sample_pool 5 4) 2 (sample_heap 5) = Undefined
  /\ exists (cells' : list N) (h' : gmap N nat),
       size_loops 7%nat (sample_pool 5 4) 2 (sample_heap 5) = Returns (cells', h')
       /\ cells' = [1; 2]%N
       /\ h' !! 3%N = None /\ h' !! 4%N = None /\ h' !! 5%N = None.
Proof.
  destruct (size_shrink_truncates_then_misdeletes_array 7%nat (sample_pool 5 4) 2
              (sample_heap 5))
    as (Hundef & cells' & h' & Hret & Hcells & _ & Hgone & _);
    [compute_done | compute_done |].
  split; [exact Hundef|].
  exists cells', h'. split; [exact Hret|]. split; [exact Hcells|].
  split; [|split].
  - apply (Hgone 2%nat); [lia|reflexivity].
  - apply (Hgone 3%nat); [lia|reflexivity].
  - apply (Hgone 4%nat); [lia|reflexivity].
Defined.

Lemma size_nonpositive_returns_false_unchanged_witness :
  exists (r : bool) (this' : Pool) (h' : gmap N nat),
    size_set 7%nat (sample_pool 3 1) (-2) (sample_heap 3) = Returns (r, this', h')
    /\ spec_resize_result r = inl InvalidArgument
    /\ this' = sample_pool 3 1
    /\ h' = sample_heap 3.
Proof.
  apply (size_nonpositive_returns_false_unchanged 7%nat (sample_pool 3 1) (-2)
           (sample_heap 3)).
  lia.
Defined.

Lemma size_to_current_capacity_misdeletes_array_witness :
  size_set 7%nat (sample_pool 3 2) 3 (sample_heap 3) = Undefined
  /\ size_loops 7%nat (sample_pool 3 2) 3 (sample_heap 3)
     = Returns (sample_cells 3, sample_heap 3).
Proof.
  apply (size_to_current_capacity_misdeletes_array 7%nat (sample_pool 3 2)
           (sample_heap 3)).
  compute_done.
Defined.

Lemma sized_constructor_builds_all_free_pool_witness :
  exists (this : Pool) (h' : gmap N nat),
    Pool_sized 7%nat 3 ∅ = Returns (Some this, h')
    /\ size this = 3
    /\ activeCount this = 0
    /\ NoDup (m_pArrayLocation this).
Proof.
  destruct (sized_constructor_builds_all_free_pool 7%nat 3 ∅)
    as (_ & this & h' & Hret & Hsize & Hact & _ & Hnd & _); [compute_done|].
  exists this, h'. split; [exact Hret|]. split; [exact Hsize|].
  split; [exact Hact|exact Hnd].
Defined.

Lemma cloning_constructor_builds_independent_copies_witness :
  exists (this : Pool) (h' : gmap N nat),
    Pool_cloned 7%nat 5%N 2 {[5%N := 42%nat]} = Returns (Some this, h')
    /\ Forall (fun a => a <> nullptr /\ ({[5%N := 42%nat]} : gmap N nat) !! a = None
                        /\ h' !! a = Some 42%nat)
         (m_pArrayLocation this)
    /\ (5%N ∉ m_pArrayLocation this).
Proof.
  destruct (cloning_constructor_builds_independent_copies 7%nat 5%N 42%nat 2
              {[5%N := 42%nat]})
    as (this & h' & Hret & _ & _ & _ & _ & Hall & Hnin & _);
    [compute_done | reflexivity |].
  exists this, h'. split; [exact Hret|]. split; [exact Hall|exact Hnin].
Defined.

Lemma cloning_constructor_null_template_undefined_witness :
  Pool_cloned 7%nat nullptr 2 (sample_heap 3) = Undefined.
Proof.
  apply (cloning_constructor_null_template_undefined 7%nat 2 (sample_heap 3));
    [lia | reflexivity].
Defined.

Lemma destructor_deletes_objects_then_misdeletes_array_witness :
  (exists h' : gmap N nat,
     Pool_dtor_loop 3 (sample_cells 3) (<[9%N := 1%nat]> (sample_heap 3))
     = Returns h'
     /\ h' !! 1%N = None /\ h' !! 2%N = None /\ h' !! 3%N = None
     /\ h' !! 9%N = Some 1%nat)
  /\ Pool_dtor 3 (Assigned (sample_cells 3)) (<[9%N := 1%nat]> (sample_heap 3))
     = Undefined.
Proof.
  destruct (destructor_deletes_objects_then_misdeletes_array (sample_pool 3 1)
              (<[9%N := 1%nat]> (sample_heap 3)))
    as ((h' & Hret & Hgone & Hkept) & Hundef); [compute_done|].
  split; [|exact Hundef].
  exists h'. split; [exact Hret|].
  split; [apply Hgone; compute_done|]. split; [apply Hgone; compute_done|].
  split; [apply Hgone; compute_done|].
  rewrite Hkept by compute_done. reflexivity.
Defined.

Lemma getNext_hands_out_a_free_object_witness :
  exists (a : N) (this' : Pool),
    getNext (sample_pool 3 1) = Returns (a, this')
    /\ a <> nullptr
    /\ (a ∉ take 1 (sample_cells 3))
    /\ (a ∈ drop 1 (sample_cells 3)).
Proof.
  destruct (getNext_hands_out_a_free_object (sample_pool 3 1) (sample_heap 3))
    as (a & this' & Hret & Hne & _ & Hnin & Hin & _);
    [compute_done | reflexivity |].
  exists a, this'. split; [exact Hret|]. split; [exact Hne|].
  split; [exact Hnin|exact Hin].
Defined.

Lemma getNext_repeated_saturates_witness :
  exists this' : Pool,
    getNext_times 5 (sample_pool 3 1)
    = Returns ([2; 3; nullptr; nullptr; nullptr]%N, this')
    /\ activeCount this' = 3.
Proof.
  destruct (getNext_repeated_saturates 5 (sample_pool 3 1) (sample_heap 3))
    as (this' & Hret & _ & _ & Hact & _); [compute_done|].
  exists this'. split; [exact Hret|exact Hact].
Defined.

Lemma getNext_then_release_is_identity_witness :
  exists (a : N) (this1 : Pool),
    getNext (sample_pool 3 1) = Returns (a, this1)
    /\ release this1 a = Returns (sample_pool 3 1).
Proof.
  destruct (getNext_then_release_is_identity (sample_pool 3 1) (sample_heap 3))
    as (a & this1 & Hret & _ & Hrel); [compute_done | reflexivity |].
  exists a, this1. split; [exact Hret|exact Hrel].
Defined.

Lemma release_then_getNext_returns_same_witness :
  exists this1 this2 : Pool,
    release (sample_pool 4 3) 1%N = Returns this1
    /\ getNext this1 = Returns (1%N, this2)
    /\ activeCount this2 = 3.
Proof.
  destruct (release_then_getNext_returns_same (sample_pool 4 3) 1%N 0)
    as (this1 & this2 & Hrel & _ & Hnext & Hact);
    [compute_done | compute_done | reflexivity |].
  exists this1, this2. split; [exact Hrel|]. split; [exact Hnext|exact Hact].
Defined.

Lemma release_moves_object_to_free_region_witness :
  exists this' : Pool,
    release (sample_pool 4 3) 1%N = Returns this'
    /\ activeCount this' = 2
    /\ m_pArrayLocation this' ≡ₚ sample_cells 4
    /\ drop 2 (m_pArrayLocation this') = [1; 4]%N.
Proof.
  destruct (release_moves_object_to_free_region (sample_pool 4 3) 1%N)
    as (this' & Hret & _ & Hact & Hperm & _ & Hfree);
    [compute_done | compute_done | compute_done |].
  exists this'. split; [exact Hret|]. split; [exact Hact|].
  split; [exact Hperm|]. rewrite Hact in Hfree. exact Hfree.
Defined.

Lemma release_all_in_any_order_witness :
  exists this' : Pool,
    release_all [2; 3; 1]%N (sample_pool 4 3) = Returns this'
    /\ activeCount this' = 0
    /\ m_pArrayLocation this' ≡ₚ sample_cells 4.
Proof.
  destruct (release_all_in_any_order [2; 3; 1]%N (sample_pool 4 3))
    as (this' & Hret & _ & Hact & Hperm & _);
    [compute_done | compute_done | compute_done | compute_done |].
  exists this'. split; [exact Hret|]. split; [exact Hact|exact Hperm].
Defined.

Lemma release_of_dead_address_changes_nothing_witness :
  release (sample_pool 3 2) 9%N = Returns (sample_pool 3 2)
  /\ release (sample_pool 3 2) nullptr = Returns (sample_pool 3 2).
Proof.
  split.
  - apply (release_of_dead_address_changes_nothing (sample_pool 3 2) (sample_heap 3));
      [compute_done | right; reflexivity].
  - apply (release_of_dead_address_changes_nothing (sample_pool 3 2) (sample_heap 3));
      [compute_done | left; reflexivity].
Defined.

Lemma slots_stay_owned_after_every_call_witness :
  let ops := [OpGetNext; OpSize 0; OpGetNext; OpRelease 1%N; OpSize (-2);
              OpGetNext; OpGetNext; OpRelease 3%N] in
  exists trace : list (Pool * gmap N nat),
    run 7%nat ops (sample_pool 3 0, sample_heap 3) = Returns trace
    /\ Forall (fun s => NoDup (m_pArrayLocation (fst s))) trace.
Proof.
  intros ops.
  destruct (slots_stay_owned_after_every_call 7%nat (sample_pool 3 0) (sample_heap 3) ops)
    as (trace & Hrun & Hall).
  - right. left. exists 3, ∅. split; [compute_done|]. vm_compute. reflexivity.
  - compute_done.
  - exists trace. split; [exact Hrun|].
    apply Forall_cons in Hall as [_ Hall].
    eapply Forall_impl; [exact Hall|]. simpl. tauto.
Defined.

Lemma counts_add_up_after_every_call_witness :
  let ops := [OpGetNext; OpSize 0; OpGetNext; OpRelease 1%N; OpSize (-2);
              OpGetNext; OpGetNext; OpRelease 3%N] in
  exists trace : list (Pool * gmap N nat),
    run 7%nat ops (sample_pool 3 0, sample_heap 3) = Returns trace
    /\ Forall (fun s =>
                 exists free : Z,
                   freeCount (fst s) = Returns free
                   /\ 0 <= free
                   /\ activeCount (fst s) + free = size (fst s))
         ((sample_pool 3 0, sample_heap 3) :: trace).
Proof.
  intros ops.
  apply (counts_add_up_after_every_call 7%nat).
  - right. left. exists 3, ∅. split; [compute_done|]. vm_compute. reflexivity.
  - compute_done.
Defined.

Lemma activeAddresses_lists_what_was_retrieved_witness :
  exists (handles : list N) (this' : Pool),
    getNext_times 2 (sample_pool 3 0) = Returns (handles, this')
    /\ snd (activeAddresses this' (Some 1%N) ∅) !! 1%N = Some 2
    /\ take 2 (fst (activeAddresses this' (Some 1%N) ∅)) = handles.
Proof.
  apply (activeAddresses_lists_what_was_retrieved 2 (sample_pool 3 0) 1%N ∅);
    [compute_done | reflexivity | compute_done].
Defined.
